(** * Pronunciation matching and spaced-repetition progress

    A shallow embedding of the matching utilities of [useVoicePractice]
    ([normalizeString], [calculateSimilarity], [calculateMatch]) and of the
    review step of the vocabulary progress store. *)

From Stdlib Require Import ZArith Lia List Bool String Ascii.
From Stdlib Require Import SpecFloat.
From stdpp Require Import base list gmap strings.

Open Scope Z_scope.

(** ** JavaScript strings

    A JS string is a sequence of UTF-16 code units; [str.length] counts
    them and [str[i]] reads one of them. *)

Abbreviation js_string := (list Z).

(** ASCII literals, used for concrete inputs. *)
Definition js_of_string (s : string) : js_string :=
  map (fun a => Z.of_nat (nat_of_ascii a)) (list_ascii_of_string s).

(** The characters matched by [\s] and removed by [String.prototype.trim]:
    WhiteSpace and LineTerminator of ECMA-262 (the same set for both). *)
Definition is_js_space (c : Z) : bool :=
  (9 <=? c) && (c <=? 13) || (c =? 32) || (c =? 160) || (c =? 5760)
  || (8192 <=? c) && (c <=? 8202) || (c =? 8232) || (c =? 8233)
  || (c =? 8239) || (c =? 8287) || (c =? 12288) || (c =? 65279).

Fixpoint drop_spaces (s : js_string) : js_string :=
  match s with
  | [] => []
  | c :: r => if is_js_space c then drop_spaces r else s
  end.

(** [str.trim()] *)
Definition trim (s : js_string) : js_string :=
  rev (drop_spaces (rev (drop_spaces s))).

(** The class [a-z0-9\s]: what [.replace(/[^a-z0-9\s]/g, '')] keeps. *)
Definition keep_char (c : Z) : bool :=
  (97 <=? c) && (c <=? 122) || (48 <=? c) && (c <=? 57) || is_js_space c.

(** [.replace(/\s+/g, ' ')]: every maximal run of [\s] becomes one space;
    [in_run] records that the previous code unit was a [\s]. *)
Fixpoint collapse_spaces (in_run : bool) (s : js_string) : js_string :=
  match s with
  | [] => []
  | c :: r =>
      if is_js_space c then
        if in_run then collapse_spaces true r else 32 :: collapse_spaces true r
      else c :: collapse_spaces false r
  end.

(** [String.prototype.toLowerCase] follows the Unicode case tables (some
    code points lower-case to ASCII letters, some to two code units); it is
    a parameter of the development.  The one fact the proofs use, where they
    need one, is that it leaves strings of [a-z], [0-9] and spaces alone. *)
Section Normalize.

Variable toLowerCase : js_string -> js_string.

(** [normalizeString] *)
Definition normalizeString (str : js_string) : js_string :=
  collapse_spaces false (List.filter keep_char (trim (toLowerCase str))).

End Normalize.

(** An ASCII-only lower-casing, which agrees with [toLowerCase] on ASCII
    input; used to run the model on concrete strings. *)
Definition ascii_toLowerCase (s : js_string) : js_string :=
  map (fun c => if (65 <=? c) && (c <=? 90) then c + 32 else c) s.

(** The characters [normalizeString] can output. *)
Definition norm_char (c : Z) : bool :=
  (97 <=? c) && (c <=? 122) || (48 <=? c) && (c <=? 57) || (c =? 32).

(** ** JavaScript numbers

    [Math.round((1 - distance / maxLen) * 100)] is evaluated in IEEE-754
    binary64; [SpecFloat] gives the operations with their rounding to
    nearest, ties to even. *)

Definition prec : Z := 53.
Definition emax : Z := 1024.

Abbreviation js_number := spec_float.

(** An integer as a JS number (exact below 2^53). *)
Definition js_number_of_Z (n : Z) : js_number := binary_normalize prec emax n 0 false.

Definition js_div (x y : js_number) : js_number := SFdiv prec emax x y.
Definition js_sub (x y : js_number) : js_number := SFsub prec emax x y.
Definition js_mul (x y : js_number) : js_number := SFmul prec emax x y.

(** [Math.round]: the integer closest to the exact value of its argument,
    ties towards +Infinity.  The argument is always zero or finite here
    ([similarity_float_range] below); the infinities and NaN are mapped to 0. *)
Definition Math_round (x : js_number) : Z :=
  match x with
  | S754_finite s m e =>
      let n := cond_Zopp s (Zpos m) in
      if 0 <=? e then n * 2 ^ e else (2 * n + 2 ^ (- e)) / 2 ^ (1 - e)
  | _ => 0
  end.

(** ** Edit distance *)

Definition cost (x y : Z) : nat := if Z.eqb x y then 0 else 1.

(** Edit scripts read left to right: delete a character of [a], insert a
    character of [b], or replace the head of [a] by the head of [b] (free
    when they are equal).  [edit_script a b n]: some script of [n]
    insertions, deletions and substitutions turns [a] into [b]. *)
Inductive edit_script : js_string -> js_string -> nat -> Prop :=
| es_nil : edit_script [] [] 0
| es_del x a b n : edit_script a b n -> edit_script (x :: a) b (S n)
| es_ins y a b n : edit_script a b n -> edit_script a (y :: b) (S n)
| es_sub x y a b n : edit_script a b n -> edit_script (x :: a) (y :: b) (n + cost x y).

(** [d] is the edit distance of [a] and [b]: the least cost of a script. *)
Definition is_edit_distance (a b : js_string) (d : nat) : Prop :=
  edit_script a b d /\ forall n, edit_script a b n -> (d <= n)%nat.

(** The Levenshtein recurrence on the heads of the strings. *)
Fixpoint lev (a b : js_string) : nat :=
  match a with
  | [] => length b
  | x :: a' =>
      (fix lev_x (b : js_string) : nat :=
         match b with
         | [] => S (length a')
         | y :: b' =>
             Nat.min (S (lev a' b)) (Nat.min (S (lev_x b')) (lev a' b' + cost x y))
         end) b
  end.

(** ** Errors and the DP matrix

    A JS exception the code could raise: reading or writing [matrix[i][j]]
    when the row [matrix[i]] is [undefined] throws a [TypeError].  A read of
    a cell that still holds the [null] the matrix was filled with is
    reported as [UninitializedRead] (JS would coerce the [null]); the
    theorems below show neither happens. *)
Inductive js_error := TypeError | UninitializedRead.

Inductive result (A : Type) : Type :=
| Ok (a : A)
| Throw (e : js_error).
Arguments Ok {A} a.
Arguments Throw {A} e.

#[global] Instance result_ret : MRet result := fun _ a => Ok a.
#[global] Instance result_bind : MBind result := fun _ _ k r =>
  match r with Ok a => k a | Throw e => Throw e end.

Abbreviation matrix := (list (list (option Z))).

(** [row[j] = v] on a JS array: in range it replaces, past the end it
    extends the array with holes. *)
Definition array_set (row : list (option Z)) (j : nat) (v : Z) : list (option Z) :=
  if decide (j < length row)%nat then <[j := Some v]> row
  else row ++ replicate (j - length row) None ++ [Some v].

(** [matrix[i][j] = v] *)
Definition matrix_set (m : matrix) (i j : nat) (v : Z) : result matrix :=
  match m !! i with
  | Some row => Ok (<[i := array_set row j v]> m)
  | None => Throw TypeError
  end.

(** [matrix[i][j]] in an arithmetic expression *)
Definition matrix_get (m : matrix) (i j : nat) : result Z :=
  match m !! i with
  | Some row => match row !! j with Some (Some v) => Ok v | _ => Throw UninitializedRead end
  | None => Throw TypeError
  end.

(** A [for] loop over the indices [l], threading the matrix. *)
Fixpoint for_each {A} (l : list nat) (body : nat -> A -> result A) (a : A) : result A :=
  match l with
  | [] => Ok a
  | k :: l' => a' ← body k a; for_each l' body a'
  end.

(** [calculateSimilarity] *)
Definition calculateSimilarity (str1 str2 : js_string) : result Z :=
  let len1 := length str1 in
  let len2 := length str2 in
  if decide (len1 = 0%nat) then Ok (if decide (len2 = 0%nat) then 100 else 0)
  else if decide (len2 = 0%nat) then Ok 0
  else
    let matrix0 := replicate (S len1) (replicate (S len2) None) in
    m1 ← for_each (seq 0 (S len1)) (fun i m => matrix_set m i 0 (Z.of_nat i)) matrix0;
    m2 ← for_each (seq 0 (S len2)) (fun j m => matrix_set m 0 j (Z.of_nat j)) m1;
    m3 ← for_each (seq 1 len1) (fun i m =>
           for_each (seq 1 len2) (fun j m =>
             let cost := if decide (str1 !! (i - 1)%nat = str2 !! (j - 1)%nat) then 0 else 1 in
             up ← matrix_get m (i - 1) j;
             left ← matrix_get m i (j - 1);
             diag ← matrix_get m (i - 1) (j - 1);
             matrix_set m i j (Z.min (up + 1) (Z.min (left + 1) (diag + cost)))) m) m2;
    distance ← matrix_get m3 len1 len2;
    let maxLen := Z.of_nat (Nat.max len1 len2) in
    Ok (Math_round (js_mul (js_sub (js_number_of_Z 1)
                                   (js_div (js_number_of_Z distance) (js_number_of_Z maxLen)))
                           (js_number_of_Z 100))).

(** The similarity value as a function: both empty gives 100, one empty
    gives 0, otherwise the binary64 value of [(1 - d / L) * 100] rounded by
    [Math.round], with [d] the edit distance and [L] the longer length. *)
Definition similarity (a b : js_string) : Z :=
  match a, b with
  | [], [] => 100
  | [], _ :: _ | _ :: _, [] => 0
  | _, _ =>
      Math_round (js_mul (js_sub (js_number_of_Z 1)
                                 (js_div (js_number_of_Z (Z.of_nat (lev a b)))
                                         (js_number_of_Z (Z.of_nat (Nat.max (length a) (length b))))))
                         (js_number_of_Z 100))
  end.

(** [round((1 - d / L) * 100)] in exact rational arithmetic, ties upwards. *)
Definition exact_percent (d L : Z) : Z := (200 * (L - d) + L) / (2 * L).

(** ** Matching *)

Inductive Feedback :=
| perfect | excellent | good | close | partial | tryagain | different.

(** [VoicePracticeResult] *)
Record VoicePracticeResult := {
  score : Z;
  feedback : Feedback;
  transcript : js_string
}.

(** [s.startsWith(p)] *)
Fixpoint is_prefix (p s : js_string) : bool :=
  match p, s with
  | [], _ => true
  | x :: p', y :: s' => (x =? y) && is_prefix p' s'
  | _ :: _, [] => false
  end.

(** [s.includes(search)] *)
Fixpoint includes (s search : js_string) : bool :=
  is_prefix search s || match s with [] => false | _ :: s' => includes s' search end.

Section Matching.

Variable toLowerCase : js_string -> js_string.

(** [calculateMatch] *)
Definition calculateMatch (target spoken : js_string) (alternatives : list js_string)
    : result VoicePracticeResult :=
  let normalizedTarget := normalizeString toLowerCase target in
  let normalizedSpoken := normalizeString toLowerCase spoken in
  if bool_decide (normalizedTarget = normalizedSpoken) then
    Ok {| score := 100; feedback := perfect; transcript := spoken |}
  else if existsb (fun alt => bool_decide (normalizeString toLowerCase alt = normalizedTarget))
                  alternatives then
    Ok {| score := 95; feedback := excellent; transcript := spoken |}
  else
    similarity ← calculateSimilarity normalizedTarget normalizedSpoken;
    if includes normalizedSpoken normalizedTarget then
      Ok {| score := Z.max similarity 85; feedback := good; transcript := spoken |}
    else if includes normalizedTarget normalizedSpoken && (2 <? Z.of_nat (length normalizedSpoken))
    then Ok {| score := Z.max similarity 70; feedback := partial; transcript := spoken |}
    else if 80 <=? similarity then
      Ok {| score := similarity; feedback := good; transcript := spoken |}
    else if 60 <=? similarity then
      Ok {| score := similarity; feedback := close; transcript := spoken |}
    else if 40 <=? similarity then
      Ok {| score := similarity; feedback := tryagain; transcript := spoken |}
    else Ok {| score := similarity; feedback := different; transcript := spoken |}.

(** "[y] contains [x] as a substring": [x] occurs at some position of [y]. *)
Definition contains (y x : js_string) : bool :=
  existsb (fun i => bool_decide (take (length x) (drop i y) = x)) (seq 0 (S (length y))).

(** The ordered rule set of the matching classifier, as the specification
    states it (first matching rule wins). *)
Definition classify_spec (target spoken : js_string) (alternatives : list js_string)
    : VoicePracticeResult :=
  let t := normalizeString toLowerCase target in
  let s := normalizeString toLowerCase spoken in
  let mk sc fb := {| score := sc; feedback := fb; transcript := spoken |} in
  if bool_decide (s = t) then mk 100 perfect
  else if bool_decide (Exists (fun alt => normalizeString toLowerCase alt = t) alternatives)
  then mk 95 excellent
  else
    let sim := similarity t s in
    if contains s t then mk (Z.max sim 85) good
    else if contains t s && (2 <? Z.of_nat (length s)) then mk (Z.max sim 70) partial
    else if 80 <=? sim then mk sim good
    else if 60 <=? sim then mk sim close
    else if 40 <=? sim then mk sim tryagain
    else mk sim different.

End Matching.

(** ** Vocabulary progress

    Modelled from the spec: the progress hook [useSlangProgress] that
    [VocabularyReview] calls ([getCardProgress], [updateCardProgress]) is
    not part of the sources; its review step follows spec sections 3, 4.4,
    6 and 7.  Timestamps are milliseconds. *)

Record CardProgress := {
  cardId : string;
  level : Z;
  lastReviewedAt : option Z;
  dueAt : option Z
}.

Inductive ReviewError := InvalidRating.

Definition day_ms : Z := 86400000.

(** Modelled from the spec: the interval table, in days, of section 4.4. *)
Definition interval_days (lvl : Z) : Z :=
  match lvl with
  | 0 => 0 | 1 => 1 | 2 => 3 | 3 => 7 | 4 => 14 | _ => 30
  end.

(** Modelled from the spec: [recordReview(progress, rating, now)]. *)
Definition recordReview (p : CardProgress) (rating now : Z) : ReviewError + CardProgress :=
  if (1 <=? rating) && (rating <=? 5) then
    let level' := if 3 <=? rating then Z.min (level p + 1) 5 else Z.max (level p - 1) 0 in
    inr {| cardId := cardId p; level := level'; lastReviewedAt := Some now;
           dueAt := Some (now + interval_days level' * day_ms) |}
  else inl InvalidRating.

(** Modelled from the spec: [getCardProgress], an unseen record when absent. *)
Definition getCardProgress (store : gmap string CardProgress) (id : string) : CardProgress :=
  default {| cardId := id; level := 0; lastReviewedAt := None; dueAt := None |} (store !! id).

(** Modelled from the spec: a review committed to the caller's store, which
    keeps the new record only when the review succeeds. *)
Definition updateCardProgress (store : gmap string CardProgress) (id : string) (rating now : Z)
    : (ReviewError + unit) * gmap string CardProgress :=
  match recordReview (getCardProgress store id) rating now with
  | inl e => (inl e, store)
  | inr p => (inr tt, <[id := p]> store)
  end.

(** ** Helper predicates *)

(** No two adjacent spaces. *)
Definition no_double_space (s : js_string) : Prop :=
  forall l1 l2, s <> l1 ++ 32 :: 32 :: l2.

(** The string does not start with a [\s] character. *)
Definition leading_ok (s : js_string) : Prop :=
  match s with c :: _ => is_js_space c = false | [] => True end.

(** An [R] by [C] matrix whose cell [(x, y)] holds [f x y]. *)
Definition mat_of (R C : nat) (f : nat -> nat -> option Z) : matrix :=
  (fun x => f x <$> seq 0 C) <$> seq 0 R.

(** What the DP cell [(x, y)] holds once written: the Levenshtein
    recurrence on the prefixes of lengths [x] and [y], read from the end. *)
Definition dp_value (a b : js_string) (x y : nat) : Z :=
  Z.of_nat (lev (rev (take x a)) (rev (take y b))).

(** The cells written before the loops reach cell [(i, j)]. *)
Definition filled (i j x y : nat) : Prop :=
  x = 0%nat \/ y = 0%nat \/ (x < i)%nat \/ (x = i /\ (y < j)%nat).

(** The matrix when the main loops are about to compute cell [(i, j)]. *)
Definition dp_state (a b : js_string) (i j : nat) : matrix :=
  mat_of (S (length a)) (S (length b))
    (fun x y => if decide (filled i j x y) then Some (dp_value a b x y) else None).

(** [fle m e B]: the value [m * 2^e] is at most [B], in integers. *)
Definition fle (m e B : Z) : Prop :=
  m * 2 ^ Z.max e 0 <= B * 2 ^ Z.max (- e) 0.

(** How far above [m * 2^e] the exact value may lie, in units of [2^e]. *)
Definition loc_excess (l : location) : Z :=
  match l with loc_Exact => 0 | loc_Inexact _ => 1 end.

(** A binary64 value that is +0 or a positive finite value at most [B]. *)
Definition nonneg_le (x : js_number) (B : Z) : Prop :=
  match x with
  | S754_zero false => True
  | S754_finite false m e => fle (Zpos m) e B
  | _ => False
  end.

(** Position-wise comparison of two strings: the cost of substituting
    every character of [a] by the one of [b] at the same index. *)
Fixpoint hamming (a b : js_string) : nat :=
  match a, b with
  | x :: a', y :: b' => (hamming a' b' + cost x y)%nat
  | _, _ => 0%nat
  end.

(** Inputs at which the binary64 evaluation and exact rounding differ:
    forty [a]s against twenty-three [a]s followed by seventeen [b]s. *)
Definition rounding_gap_a : js_string := replicate 40 97.
Definition rounding_gap_b : js_string := replicate 23 97 ++ replicate 17 98.

(** ** The voice practice hook [useVoicePractice] *)

Section VoiceHook.

Variable toLowerCase : js_string -> js_string.

(** [startListening(targetWord)]: it returns early ([None]) when there is no
    recognition object or the target word is empty; otherwise it stores
    [targetWord.toLowerCase().trim()] in [targetWordRef] (and clears the
    error, the result and the transcript). *)
Definition startListening_target (has_recognition : bool) (targetWord : js_string)
    : option js_string :=
  if negb has_recognition || bool_decide (targetWord = []) then None
  else Some (trim (toLowerCase targetWord)).

(** [recognition.onresult]: [results] lists the transcripts of
    [event.results[0]] ([results[i].transcript]).  The primary transcript is
    lowercased and trimmed; on a final result every transcript, the primary
    one included, becomes an alternative and [calculateMatch] classifies the
    primary one against [targetWordRef.current].  Reading
    [results[0].transcript] of an empty result list is a TypeError.  The
    value is the new transcript and, on a final result, the new result. *)
Definition onresult (target : js_string) (results : list js_string) (isFinal : bool)
    : result (js_string * option VoicePracticeResult) :=
  match results with
  | [] => Throw TypeError
  | r0 :: _ =>
      let spokenText := trim (toLowerCase r0) in
      if isFinal then
        let alternatives := map (fun r => trim (toLowerCase r)) results in
        matchResult ← calculateMatch toLowerCase target spokenText alternatives;
        Ok (spokenText, Some matchResult)
      else Ok (spokenText, None)
  end.

End VoiceHook.

(** ** The vocabulary review screen [VocabularyReview] *)

(** The fields of a [SlangTerm] that the screen's logic reads (the term,
    meaning and example are only displayed). *)
Record SlangTerm := {
  term_id : string;
  term_category : string;
  term_difficulty : string
}.

(** [currentIndex], [isFlipped] and [sessionStats = {reviewed, correct}]. *)
Record SessionState := {
  currentIndex : Z;
  isFlipped : bool;
  reviewed : Z;
  correct : Z
}.

(** [currentCards[currentIndex]]: undefined for a negative index or one past
    the end. *)
Definition js_index {A} (l : list A) (i : Z) : option A :=
  if i <? 0 then None else l !! Z.to_nat i.

(** The index after [handleRate] or [handleSkip]: the next card, or the
    first one after the last. *)
Definition next_index (len idx : Z) : Z := if idx <? len - 1 then idx + 1 else 0.

Section Review.

(** The store of the progress hook and its [updateCardProgress(id, rating)],
    which is not part of the sources. *)
Variable Store : Type.
Variable updateCardProgress_hook : Store -> string -> Z -> Store.

(** [handleRate(rating)] *)
Definition handleRate (currentCards : list SlangTerm) (st : SessionState) (store : Store)
    (rating : Z) : SessionState * Store :=
  match js_index currentCards (currentIndex st) with
  | None => (st, store)
  | Some currentCard =>
      let store' := updateCardProgress_hook store (term_id currentCard) rating in
      ({| currentIndex := next_index (Z.of_nat (length currentCards)) (currentIndex st);
          isFlipped := false;
          reviewed := reviewed st + 1;
          correct := if 3 <=? rating then correct st + 1 else correct st |}, store')
  end.

End Review.

(** [handleSkip()] *)
Definition handleSkip (currentCards : list SlangTerm) (st : SessionState) : SessionState :=
  {| currentIndex := next_index (Z.of_nat (length currentCards)) (currentIndex st);
     isFlipped := false;
     reviewed := reviewed st;
     correct := correct st |}.

(** [resetSession()] *)
Definition resetSession (st : SessionState) : SessionState :=
  {| currentIndex := 0; isFlipped := false; reviewed := 0; correct := 0 |}.

(** [handleFlip()]: turns the card over; [recordCardView()] is called, here
    counted in [views], when the card was showing its front. *)
Definition handleFlip (st : SessionState) (views : Z) : SessionState * Z :=
  ({| currentIndex := currentIndex st; isFlipped := negb (isFlipped st);
      reviewed := reviewed st; correct := correct st |},
   if negb (isFlipped st) then views + 1 else views).

(** The "Previous" and "Next" buttons of the browse mode. *)
Definition browsePrevious (st : SessionState) : SessionState :=
  {| currentIndex := Z.max 0 (currentIndex st - 1); isFlipped := false;
     reviewed := reviewed st; correct := correct st |}.

Definition browseNext (currentCards : list SlangTerm) (st : SessionState) : SessionState :=
  {| currentIndex := Z.min (Z.of_nat (length currentCards) - 1) (currentIndex st + 1);
     isFlipped := false; reviewed := reviewed st; correct := correct st |}.

(** The session's user actions on a deck, the store left aside. *)
Inductive SessionAction :=
| ActRate (rating : Z) | ActSkip | ActFlip | ActReset | ActPrevious | ActNext.

Definition session_step (currentCards : list SlangTerm) (st : SessionState) (a : SessionAction)
    : SessionState :=
  match a with
  | ActRate rating => fst (handleRate unit (fun s _ _ => s) currentCards st tt rating)
  | ActSkip => handleSkip currentCards st
  | ActFlip => fst (handleFlip st 0)
  | ActReset => resetSession st
  | ActPrevious => browsePrevious st
  | ActNext => browseNext currentCards st
  end.

(** The initial [useState] values. *)
Definition initial_session : SessionState :=
  {| currentIndex := 0; isFlipped := false; reviewed := 0; correct := 0 |}.


(** An entry of [categoryStats]. *)
Record CatStat := { cs_total : Z; cs_learned : Z; cs_mastered : Z }.

Section CategoryStats.

(** [getCardProgress(id).level], from the progress hook. *)
Variable level_of : string -> Z.

(** One step of [slangData.forEach] in [categoryStats]. *)
Definition categoryStats_add (stats : gmap string CatStat) (term : SlangTerm) : gmap string CatStat :=
  let s := match stats !! term_category term with
           | Some s => s
           | None => {| cs_total := 0; cs_learned := 0; cs_mastered := 0 |}
           end in
  let lvl := level_of (term_id term) in
  <[term_category term := {| cs_total := cs_total s + 1;
                             cs_learned := if 1 <=? lvl then cs_learned s + 1 else cs_learned s;
                             cs_mastered := if 5 <=? lvl then cs_mastered s + 1 else cs_mastered s |}]>
    stats.

(** [categoryStats] *)
Definition categoryStats (slangData : list SlangTerm) : gmap string CatStat :=
  foldl categoryStats_add ∅ slangData.

End CategoryStats.

(** The number of terms of a list that satisfy [p]. *)
Definition count_terms (p : SlangTerm -> bool) (l : list SlangTerm) : Z :=
  Z.of_nat (length (List.filter p l)).


(** The session state is well formed for a deck of [len] cards. *)
Definition session_ok (len : Z) (st : SessionState) : Prop :=
  0 <= currentIndex st < len /\ 0 <= correct st <= reviewed st.

(** The per-category counts over a list of terms. *)
Definition cat_counts (level_of : string -> Z) (c : string) (terms : list SlangTerm) : CatStat :=
  {| cs_total := count_terms (fun t => bool_decide (term_category t = c)) terms;
     cs_learned := count_terms (fun t => bool_decide (term_category t = c) && (1 <=? level_of (term_id t)))
                               terms;
     cs_mastered := count_terms (fun t => bool_decide (term_category t = c) && (5 <=? level_of (term_id t)))
                                terms |}.

(** Field-wise sum of two [categoryStats] entries. *)
Definition cs_plus (s u : CatStat) : CatStat :=
  {| cs_total := cs_total s + cs_total u; cs_learned := cs_learned s + cs_learned u;
     cs_mastered := cs_mastered s + cs_mastered u |}.

(** Sample terms for concrete runs. *)
Definition arvo : SlangTerm :=
  {| term_id := "arvo"; term_category := "everyday"; term_difficulty := "beginner" |}.
Definition brekkie : SlangTerm :=
  {| term_id := "brekkie"; term_category := "food"; term_difficulty := "beginner" |}.
Definition servo : SlangTerm :=
  {| term_id := "servo"; term_category := "everyday"; term_difficulty := "intermediate" |}.

(** * Proofs *)

(** ** Normalization *)

Lemma drop_spaces_suffix s : exists p, s = p ++ drop_spaces s.
Proof.
  induction s as [|c r IH]; simpl.
  - by exists [].
  - destruct (is_js_space c).
    + destruct IH as [p Hp]. exists (c :: p). simpl. by f_equal.
    + by exists [].
Qed.

Lemma drop_spaces_leading s : leading_ok (drop_spaces s).
Proof.
  induction s as [|c r IH]; simpl; [done|].
  destruct (is_js_space c) eqn:E; [done|]. simpl. done.
Qed.

Lemma drop_spaces_id s : leading_ok s -> drop_spaces s = s.
Proof. destruct s as [|c r]; simpl; [done|]. by intros ->. Qed.

Lemma Forall_suffix (P : Z -> Prop) p s : Forall P (p ++ s) -> Forall P s.
Proof. rewrite Forall_app. tauto. Qed.

Lemma Forall_trim (P : Z -> Prop) s : Forall P s -> Forall P (trim s).
Proof.
  intros H. unfold trim. apply Forall_rev.
  destruct (drop_spaces_suffix (rev (drop_spaces s))) as [p Hp].
  apply (Forall_suffix P p). rewrite <- Hp. apply Forall_rev.
  destruct (drop_spaces_suffix s) as [q Hq].
  apply (Forall_suffix P q). by rewrite <- Hq.
Qed.

Lemma no_double_space_suffix p s : no_double_space (p ++ s) -> no_double_space s.
Proof.
  intros H l1 l2 E. apply (H (p ++ l1) l2). rewrite E. by rewrite app_assoc.
Qed.

Lemma no_double_space_rev s : no_double_space s -> no_double_space (rev s).
Proof.
  intros H l1 l2 E. apply (H (rev l2) (rev l1)).
  rewrite <- (rev_involutive s), E. rewrite rev_app_distr. simpl.
  by rewrite <- !app_assoc.
Qed.

Lemma no_double_space_trim s : no_double_space s -> no_double_space (trim s).
Proof.
  intros H. unfold trim. apply no_double_space_rev.
  destruct (drop_spaces_suffix (rev (drop_spaces s))) as [p Hp].
  apply (no_double_space_suffix p). rewrite <- Hp. apply no_double_space_rev.
  destruct (drop_spaces_suffix s) as [q Hq].
  apply (no_double_space_suffix q). by rewrite <- Hq.
Qed.

Lemma no_double_space_cons x t :
  no_double_space t -> (x = 32 -> head t <> Some 32) -> no_double_space (x :: t).
Proof.
  intros Ht Hx [|y l1] l2 E; simpl in E; simplify_eq.
  - by apply Hx.
  - by apply (Ht l1 l2).
Qed.

Lemma no_double_space_tail x t : no_double_space (x :: t) -> no_double_space t.
Proof. intros H. apply (no_double_space_suffix [x]). exact H. Qed.

Lemma no_double_space_head t : no_double_space (32 :: t) -> head t <> Some 32.
Proof.
  intros H Ht. destruct t as [|y t]; simpl in Ht; [done|]. injection Ht as ->. by apply (H [] t).
Qed.

Lemma space_32 : is_js_space 32 = true.
Proof. reflexivity. Qed.

Lemma collapse_spaces_chars b s :
  Forall (fun c => keep_char c = true) s ->
  Forall (fun c => norm_char c = true) (collapse_spaces b s).
Proof.
  revert b. induction s as [|c r IH]; intros b H; simpl; [constructor|].
  inversion H as [|? ? Hc Hr]; subst.
  destruct (is_js_space c) eqn:Ec; [destruct b|]; auto.
  constructor; auto. unfold keep_char, norm_char in *.
  rewrite Ec, orb_false_r in Hc. by rewrite Hc.
Qed.

Lemma collapse_spaces_no_double b s :
  no_double_space (collapse_spaces b s) /\
  (b = true -> head (collapse_spaces b s) <> Some 32).
Proof.
  revert b. induction s as [|c r IH]; intros b; simpl.
  - split; [intros l1 l2 E; by destruct l1|done].
  - destruct (is_js_space c) eqn:Ec.
    + destruct b; [apply IH|]. split; [|done].
      apply no_double_space_cons; [apply IH|]. intros _. by apply IH.
    + split; [|simpl; intros _ E; simplify_eq; by rewrite space_32 in Ec].
      apply no_double_space_cons; [apply IH|]. intros ->. by rewrite space_32 in Ec.
Qed.

Lemma normalizeString_shape toLowerCase str :
  Forall (fun c => norm_char c = true) (normalizeString toLowerCase str) /\
  no_double_space (normalizeString toLowerCase str).
Proof.
  unfold normalizeString. split; [|apply collapse_spaces_no_double].
  apply collapse_spaces_chars. apply List.Forall_forall. intros c Hc.
  apply filter_In in Hc. tauto.
Qed.

(** ** C10 *)

(** Claim C10: every character of [normalizeString]'s output is a lower-case
    ASCII letter, a decimal digit or a space, and the output never contains
    two adjacent spaces, whatever the input and its lower-casing. *)
Theorem normalizeString_output_charset toLowerCase str :
  Forall (fun c => (97 <= c <= 122) \/ (48 <= c <= 57) \/ c = 32)
         (normalizeString toLowerCase str) /\
  (forall l1 l2, normalizeString toLowerCase str <> l1 ++ 32 :: 32 :: l2).
Proof.
  destruct (normalizeString_shape toLowerCase str) as [Hc Hd]. split; [|exact Hd].
  eapply Forall_impl; [exact Hc|]. intros c. unfold norm_char.
  rewrite !orb_true_iff, !andb_true_iff, !Z.leb_le, Z.eqb_eq. lia.
Qed.

(** ** C2 *)

Lemma norm_keep c : norm_char c = true -> keep_char c = true.
Proof.
  unfold norm_char, keep_char. intros H.
  destruct ((97 <=? c) && (c <=? 122)); [done|]. destruct ((48 <=? c) && (c <=? 57)); [done|].
  simpl in *. apply Z.eqb_eq in H. by subst.
Qed.

Lemma norm_space c : norm_char c = true -> is_js_space c = true -> c = 32.
Proof.
  unfold norm_char, is_js_space.
  rewrite !orb_true_iff, !andb_true_iff, !Z.leb_le, !Z.eqb_eq. lia.
Qed.

Lemma filter_keep_normal s :
  Forall (fun c => norm_char c = true) s -> List.filter keep_char s = s.
Proof.
  induction 1 as [|c r Hc _ IH]; simpl; [done|]. by rewrite norm_keep, IH.
Qed.

Lemma collapse_spaces_normal s : forall b,
  Forall (fun c => norm_char c = true) s -> no_double_space s ->
  (b = true -> head s <> Some 32) -> collapse_spaces b s = s.
Proof.
  induction s as [|c r IH]; intros b Hc Hd Hb; simpl; [done|].
  inversion Hc as [|? ? Hc1 Hr]; subst.
  destruct (is_js_space c) eqn:Ec.
  - pose proof (norm_space c Hc1 Ec) as ->.
    destruct b; [by destruct Hb|].
    rewrite IH; [done|done|by eapply no_double_space_tail|].
    intros _. by apply no_double_space_head.
  - rewrite IH; [done|done|by eapply no_double_space_tail|done].
Qed.

Lemma trim_leading s : leading_ok (trim s) /\ leading_ok (rev (trim s)).
Proof.
  unfold trim. rewrite rev_involutive. split; [|apply drop_spaces_leading].
  destruct (drop_spaces_suffix (rev (drop_spaces s))) as [p Hp].
  set (w := drop_spaces (rev (drop_spaces s))) in *.
  pose proof (drop_spaces_leading s) as Hl.
  assert (drop_spaces s = rev w ++ rev p) as E.
  { rewrite <- rev_app_distr, <- Hp. by rewrite rev_involutive. }
  rewrite E in Hl. destruct (rev w) as [|c t]; simpl in *; done.
Qed.

Lemma trim_id s : leading_ok s -> leading_ok (rev s) -> trim s = s.
Proof.
  intros H1 H2. unfold trim. rewrite (drop_spaces_id s H1), (drop_spaces_id _ H2).
  apply rev_involutive.
Qed.

Lemma normalizeString_normal toLowerCase s :
  (forall s, Forall (fun c => norm_char c = true) s -> toLowerCase s = s) ->
  Forall (fun c => norm_char c = true) s -> no_double_space s ->
  normalizeString toLowerCase s = trim s.
Proof.
  intros Hlow Hc Hd. unfold normalizeString. rewrite (Hlow s Hc).
  rewrite filter_keep_normal by (by apply Forall_trim).
  apply collapse_spaces_normal; [by apply Forall_trim|by apply no_double_space_trim|done].
Qed.

(** Claim C2, as stated, fails: normalizing ["a !"] gives ["a "] (the
    string is trimmed before the [!] is stripped), and normalizing ["a "]
    gives ["a"]. *)
Lemma normalizeString_not_idempotent :
  let n := normalizeString ascii_toLowerCase (js_of_string "a !") in
  n = js_of_string "a " /\
  normalizeString ascii_toLowerCase n = js_of_string "a" /\
  normalizeString ascii_toLowerCase n <> n.
Proof. vm_compute. split; [done|]. split; [done|]. discriminate. Qed.

(** Claim C2, corrected: for any lower-casing that leaves [a-z0-9 ] alone,
    normalizing twice equals the first result with its leading and trailing
    spaces trimmed, and a third normalization changes nothing. *)
Theorem normalizeString_twice toLowerCase
    (Hlower : forall s, Forall (fun c => norm_char c = true) s -> toLowerCase s = s)
    (str : js_string) :
  normalizeString toLowerCase (normalizeString toLowerCase str)
    = trim (normalizeString toLowerCase str) /\
  normalizeString toLowerCase (normalizeString toLowerCase (normalizeString toLowerCase str))
    = normalizeString toLowerCase (normalizeString toLowerCase str).
Proof.
  destruct (normalizeString_shape toLowerCase str) as [Hc Hd].
  assert (E : normalizeString toLowerCase (normalizeString toLowerCase str)
              = trim (normalizeString toLowerCase str))
    by (by apply normalizeString_normal).
  split; [exact E|]. rewrite E.
  rewrite normalizeString_normal; [|done|by apply Forall_trim|by apply no_double_space_trim].
  destruct (trim_leading (normalizeString toLowerCase str)) as [H1 H2].
  by apply trim_id.
Qed.

Lemma normalizeString_twice_witness :
  normalizeString (fun s => s) (normalizeString (fun s => s) (js_of_string "Hi, there !"))
    = trim (normalizeString (fun s => s) (js_of_string "Hi, there !")) /\
  normalizeString (fun s => s)
    (normalizeString (fun s => s) (normalizeString (fun s => s) (js_of_string "Hi, there !")))
    = normalizeString (fun s => s) (normalizeString (fun s => s) (js_of_string "Hi, there !")).
Proof. apply (normalizeString_twice (fun s => s)). intros s _. reflexivity. Defined.

(** ** The Levenshtein recurrence computes the edit distance *)

Lemma lev_nil_r a : lev a [] = length a.
Proof. by destruct a. Qed.

Lemma lev_cons_cons x a y b :
  lev (x :: a) (y :: b) =
  Nat.min (S (lev a (y :: b))) (Nat.min (S (lev (x :: a) b)) (lev a b + cost x y)).
Proof. reflexivity. Qed.

Lemma min3_case (P : nat -> Prop) n1 n2 n3 :
  P n1 -> P n2 -> P n3 -> P (Nat.min n1 (Nat.min n2 n3)).
Proof. intros. by repeat apply Nat.min_case. Qed.

Lemma edit_script_lev a b : edit_script a b (lev a b).
Proof.
  revert b. induction a as [|x a IHa]; intros b.
  - simpl. induction b as [|y b IHb]; simpl; constructor; done.
  - induction b as [|y b IHb].
    + rewrite lev_nil_r. simpl. constructor. rewrite <- lev_nil_r. apply IHa.
    + rewrite lev_cons_cons. apply min3_case.
      * apply es_del, IHa.
      * apply es_ins, IHb.
      * apply es_sub, IHa.
Qed.

Lemma lev_le_script a b n : edit_script a b n -> (lev a b <= n)%nat.
Proof.
  induction 1 as [|x a b n _ IH|y a b n _ IH|x y a b n _ IH].
  - done.
  - destruct b as [|y b].
    + rewrite lev_nil_r in *. simpl. lia.
    + rewrite lev_cons_cons. lia.
  - destruct a as [|x a].
    + simpl in *. lia.
    + rewrite lev_cons_cons. lia.
  - rewrite lev_cons_cons. lia.
Qed.

Lemma lev_is_edit_distance a b : is_edit_distance a b (lev a b).
Proof. split; [apply edit_script_lev|apply lev_le_script]. Qed.

Lemma edit_script_app a b n c d m :
  edit_script a b n -> edit_script c d m -> edit_script (a ++ c) (b ++ d) (n + m).
Proof.
  intros H1 H2. induction H1 as [|x a b n _ IH|y a b n _ IH|x y a b n _ IH]; simpl.
  - done.
  - by constructor.
  - by constructor.
  - replace (n + cost x y + m)%nat with (n + m + cost x y)%nat by lia. by constructor.
Qed.

Lemma edit_script_rev a b n : edit_script a b n -> edit_script (rev a) (rev b) n.
Proof.
  induction 1 as [|x a b n _ IH|y a b n _ IH|x y a b n _ IH]; simpl.
  - constructor.
  - rewrite <- (app_nil_r (rev b)). replace (S n) with (n + 1)%nat by lia.
    apply edit_script_app; [done|]. repeat constructor.
  - rewrite <- (app_nil_r (rev a)). replace (S n) with (n + 1)%nat by lia.
    apply edit_script_app; [done|]. repeat constructor.
  - apply edit_script_app; [done|].
    apply (es_sub x y [] [] 0). constructor.
Qed.

Lemma cost_sym x y : cost x y = cost y x.
Proof. unfold cost. by rewrite Z.eqb_sym. Qed.

Lemma edit_script_sym a b n : edit_script a b n -> edit_script b a n.
Proof.
  induction 1; [constructor|by constructor|by constructor|].
  rewrite cost_sym. by constructor.
Qed.

Lemma lev_rev a b : lev (rev a) (rev b) = lev a b.
Proof.
  apply Nat.le_antisymm; apply lev_le_script.
  - apply edit_script_rev, edit_script_lev.
  - rewrite <- (rev_involutive a), <- (rev_involutive b) at 1.
    apply edit_script_rev, edit_script_lev.
Qed.

Lemma lev_sym a b : lev a b = lev b a.
Proof.
  apply Nat.le_antisymm; apply lev_le_script, edit_script_sym, edit_script_lev.
Qed.

(** ** The DP matrix of [calculateSimilarity] *)

Lemma mat_of_lookup R C f i :
  (i < R)%nat -> mat_of R C f !! i = Some (f i <$> seq 0 C).
Proof. intros Hi. unfold mat_of. by rewrite list_lookup_fmap, lookup_seq_lt. Qed.

Lemma row_lookup (g : nat -> option Z) C j :
  (j < C)%nat -> (g <$> seq 0 C) !! j = Some (g j).
Proof. intros Hj. by rewrite list_lookup_fmap, lookup_seq_lt. Qed.

Lemma length_mat_of R C f : length (mat_of R C f) = R.
Proof. unfold mat_of. by rewrite length_fmap, length_seq. Qed.

Lemma mat_of_ext R C f g :
  (forall x y, (x < R)%nat -> (y < C)%nat -> f x y = g x y) -> mat_of R C f = mat_of R C g.
Proof.
  intros H. unfold mat_of. apply list_fmap_ext. intros x x' Hx.
  apply lookup_seq in Hx as [-> Hx]. apply list_fmap_ext. intros y y' Hy.
  apply lookup_seq in Hy as [-> Hy]. apply H; lia.
Qed.

Lemma mat_of_replicate R C :
  replicate R (replicate C None) = mat_of R C (fun _ _ => None).
Proof.
  apply list_eq. intros i. destruct (decide (i < R)%nat) as [Hi|Hi].
  - rewrite lookup_replicate_2, mat_of_lookup by done. f_equal.
    apply list_eq. intros j. destruct (decide (j < C)%nat) as [Hj|Hj].
    + by rewrite lookup_replicate_2, row_lookup.
    + rewrite !lookup_ge_None_2; [done| |]; rewrite ?length_fmap, ?length_seq,
        ?length_replicate; lia.
  - rewrite !lookup_ge_None_2; [done| |]; rewrite ?length_mat_of, ?length_replicate; lia.
Qed.

Lemma matrix_get_mat_of R C f i j v :
  (i < R)%nat -> (j < C)%nat -> f i j = Some v -> matrix_get (mat_of R C f) i j = Ok v.
Proof.
  intros Hi Hj Hv. unfold matrix_get. rewrite mat_of_lookup, row_lookup by done.
  by rewrite Hv.
Qed.

Lemma matrix_set_mat_of R C f g i j v :
  (i < R)%nat -> (j < C)%nat -> g i j = Some v ->
  (forall x y, (x < R)%nat -> (y < C)%nat -> ~ (x = i /\ y = j) -> g x y = f x y) ->
  matrix_set (mat_of R C f) i j v = Ok (mat_of R C g).
Proof.
  intros Hi Hj Hv Hg. unfold matrix_set. rewrite mat_of_lookup by done. f_equal.
  apply list_eq. intros x. destruct (decide (x = i)) as [->|Hx].
  - rewrite list_lookup_insert_eq by (by rewrite length_mat_of).
    rewrite mat_of_lookup by done. f_equal. unfold array_set.
    rewrite length_fmap, length_seq, decide_True by done.
    apply list_eq. intros y. destruct (decide (y = j)) as [->|Hy].
    + rewrite list_lookup_insert_eq by (by rewrite length_fmap, length_seq).
      rewrite row_lookup by done. by rewrite Hv.
    + rewrite list_lookup_insert_ne by congruence.
      destruct (decide (y < C)%nat).
      * rewrite !row_lookup by done. f_equal. symmetry. apply Hg; [done|done|]. intros []; done.
      * rewrite !lookup_ge_None_2; [done| |]; rewrite length_fmap, length_seq; lia.
  - rewrite list_lookup_insert_ne by congruence.
    destruct (decide (x < R)%nat).
    + rewrite !mat_of_lookup by done. f_equal. apply list_fmap_ext. intros y y' Hy.
      apply lookup_seq in Hy as [-> Hy]. symmetry. apply Hg; [done|lia|]. intros []; done.
    + rewrite !lookup_ge_None_2; [done| |]; rewrite length_mat_of; lia.
Qed.

Lemma for_each_inv {A} (P : nat -> A -> Prop) (body : nat -> A -> result A) s n a :
  P s a ->
  (forall k a, (s <= k < s + n)%nat -> P k a -> exists a', body k a = Ok a' /\ P (S k) a') ->
  exists a', for_each (seq s n) body a = Ok a' /\ P (s + n)%nat a'.
Proof.
  revert s a. induction n as [|n IH]; intros s a Hs Hstep; simpl.
  - exists a. by rewrite Nat.add_0_r.
  - destruct (Hstep s a) as [a1 [E1 H1]]; [lia|done|].
    rewrite E1. cbn [mbind result_bind].
    destruct (IH (S s) a1) as [a2 [E2 H2]]; [done| |].
    + intros k b Hk. apply Hstep. lia.
    + exists a2. split; [done|]. by replace (s + S n)%nat with (S s + n)%nat by lia.
Qed.

Lemma for_each_inv_eq {A} (P : nat -> A -> Prop) (body : nat -> A -> result A) s n a target :
  P s a ->
  (forall k a, (s <= k < s + n)%nat -> P k a -> exists a', body k a = Ok a' /\ P (S k) a') ->
  (forall a', P (s + n)%nat a' -> a' = target) ->
  for_each (seq s n) body a = Ok target.
Proof.
  intros Hs Hstep Hend. destruct (for_each_inv P body s n a Hs Hstep) as [a' [E H]].
  rewrite E. f_equal. by apply Hend.
Qed.

Lemma dp_value_col a b x : (x <= length a)%nat -> dp_value a b x 0 = Z.of_nat x.
Proof.
  intros Hx. unfold dp_value. simpl. rewrite lev_nil_r, length_rev, length_take. lia.
Qed.

Lemma dp_value_row a b y : (y <= length b)%nat -> dp_value a b 0 y = Z.of_nat y.
Proof. intros Hy. unfold dp_value. simpl. rewrite length_rev, length_take. lia. Qed.

Lemma dp_value_step a b i j x y :
  a !! i = Some x -> b !! j = Some y ->
  dp_value a b (S i) (S j) =
  Z.min (dp_value a b i (S j) + 1)
        (Z.min (dp_value a b (S i) j + 1) (dp_value a b i j + Z.of_nat (cost x y))).
Proof.
  intros Hx Hy. unfold dp_value.
  rewrite (take_S_r a i x), (take_S_r b j y) by done. rewrite !rev_unit.
  rewrite lev_cons_cons, !Nat2Z.inj_min. lia.
Qed.

Lemma dp_cost (x y : Z) :
  (if decide (Some x = Some y) then 0 else 1) = Z.of_nat (cost x y).
Proof.
  unfold cost. case_decide as Hd; destruct (Z.eqb_spec x y) as [->|Hne]; try done.
  by injection Hd.
Qed.

(** The loop [for (i = 0; i <= len1; i++) matrix[i][0] = i]. *)
Lemma dp_init_col a b :
  for_each (seq 0 (S (length a))) (fun i m => matrix_set m i 0 (Z.of_nat i))
    (replicate (S (length a)) (replicate (S (length b)) None))
  = Ok (mat_of (S (length a)) (S (length b))
          (fun x y => if decide (y = 0%nat) then Some (dp_value a b x y) else None)).
Proof.
  set (R := S (length a)). set (C := S (length b)).
  destruct (for_each_inv
    (fun k m => m = mat_of R C (fun x y =>
       if decide (y = 0%nat /\ (x < k)%nat) then Some (dp_value a b x y) else None))
    (fun i m => matrix_set m i 0 (Z.of_nat i)) 0 R
    (replicate R (replicate C None))) as [m [E ->]].
  - rewrite mat_of_replicate. apply mat_of_ext. intros x y _ _.
    rewrite decide_False; [done|lia].
  - intros k m Hk ->. eexists; split; [|reflexivity].
    apply matrix_set_mat_of; [lia|lia| |].
    + rewrite decide_True by lia. rewrite dp_value_col; [done|lia].
    + intros x y Hx Hy Hne. repeat case_decide; done || lia.
  - rewrite E. f_equal. apply mat_of_ext. intros x y Hx _.
    repeat case_decide; done || lia.
Qed.

(** The loop [for (j = 0; j <= len2; j++) matrix[0][j] = j]. *)
Lemma dp_init_row a b :
  for_each (seq 0 (S (length b))) (fun j m => matrix_set m 0 j (Z.of_nat j))
    (mat_of (S (length a)) (S (length b))
       (fun x y => if decide (y = 0%nat) then Some (dp_value a b x y) else None))
  = Ok (dp_state a b 1 1).
Proof.
  set (R := S (length a)). set (C := S (length b)).
  destruct (for_each_inv
    (fun k m => m = mat_of R C (fun x y =>
       if decide (y = 0%nat \/ (x = 0%nat /\ (y < k)%nat)) then Some (dp_value a b x y) else None))
    (fun j m => matrix_set m 0 j (Z.of_nat j)) 0 C
    (mat_of R C (fun x y => if decide (y = 0%nat) then Some (dp_value a b x y) else None)))
    as [m [E ->]].
  - apply mat_of_ext. intros x y _ _. repeat case_decide; done || lia.
  - intros k m Hk ->. eexists; split; [|reflexivity].
    apply matrix_set_mat_of; [lia|lia| |].
    + rewrite decide_True by lia. rewrite dp_value_row; [done|lia].
    + intros x y Hx Hy Hne. repeat case_decide; done || lia.
  - rewrite E. f_equal. unfold dp_state, filled. apply mat_of_ext. intros x y Hx Hy.
    repeat case_decide; done || lia.
Qed.

(** The nested loops filling [matrix[i][j]] for [i, j >= 1]. *)
Lemma dp_main a b :
  for_each (seq 1 (length a)) (fun i m =>
    for_each (seq 1 (length b)) (fun j m =>
      let cost := if decide (a !! (i - 1)%nat = b !! (j - 1)%nat) then 0 else 1 in
      up ← matrix_get m (i - 1) j;
      left ← matrix_get m i (j - 1);
      diag ← matrix_get m (i - 1) (j - 1);
      matrix_set m i j (Z.min (up + 1) (Z.min (left + 1) (diag + cost)))) m)
    (dp_state a b 1 1)
  = Ok (dp_state a b (S (length a)) 1).
Proof.
  apply (for_each_inv_eq (fun i m => m = dp_state a b i 1)); [done| |by intros ? ->].
  intros i m Hi ->. eexists; split; [|reflexivity].
  apply (for_each_inv_eq (fun j m => m = dp_state a b i j)); [done| |].
  - intros j m Hj ->. destruct i as [|i]; [lia|]. destruct j as [|j]; [lia|].
    replace (S i - 1)%nat with i by lia. replace (S j - 1)%nat with j by lia.
    destruct (lookup_lt_is_Some_2 a i) as [x Hx]; [lia|].
    destruct (lookup_lt_is_Some_2 b j) as [y Hy]; [lia|].
    unfold dp_state. cbv zeta.
    rewrite (matrix_get_mat_of _ _ _ i (S j) (dp_value a b i (S j)));
      [|lia|lia|by rewrite decide_True by (unfold filled; lia)].
    cbn [mbind result_bind].
    rewrite (matrix_get_mat_of _ _ _ (S i) j (dp_value a b (S i) j));
      [|lia|lia|by rewrite decide_True by (unfold filled; lia)].
    cbn [mbind result_bind].
    rewrite (matrix_get_mat_of _ _ _ i j (dp_value a b i j));
      [|lia|lia|by rewrite decide_True by (unfold filled; lia)].
    cbn [mbind result_bind].
    rewrite Hx, Hy, dp_cost, <- (dp_value_step a b i j x y) by done.
    eexists; split; [|reflexivity]. apply matrix_set_mat_of; [lia|lia| |].
    + rewrite decide_True; [done|unfold filled; lia].
    + intros x' y' Hx' Hy' Hne. unfold filled. repeat case_decide; done || lia.
  - intros m ->. unfold dp_state, filled. apply mat_of_ext. intros x y _ Hy.
    repeat case_decide; done || lia.
Qed.

Lemma calculateSimilarity_value str1 str2 :
  calculateSimilarity str1 str2 = Ok (similarity str1 str2).
Proof.
  destruct str1 as [|x a]; destruct str2 as [|y b]; try reflexivity.
  set (s1 := x :: a). set (s2 := y :: b).
  unfold calculateSimilarity. cbv zeta.
  rewrite decide_False by (subst s1; simpl; lia).
  rewrite decide_False by (subst s2; simpl; lia).
  rewrite dp_init_col. cbn [mbind result_bind].
  rewrite dp_init_row. cbn [mbind result_bind].
  rewrite dp_main. cbn [mbind result_bind].
  unfold dp_state.
  rewrite (matrix_get_mat_of _ _ _ (length s1) (length s2) (dp_value s1 s2 (length s1) (length s2)));
    [|lia|lia|by rewrite decide_True by (unfold filled; lia)].
  cbn [mbind result_bind]. unfold dp_value. rewrite !take_ge by lia. rewrite lev_rev.
  reflexivity.
Qed.

(** ** Bounds through binary64 rounding *)

Lemma pow2_gt0 k : 0 <= k -> 0 < 2 ^ k.
Proof. intros. by apply Z.pow_pos_nonneg. Qed.

Lemma pow2_split a b : 0 <= a -> 0 <= b -> 2 ^ (a + b) = 2 ^ a * 2 ^ b.
Proof. intros. by apply Z.pow_add_r. Qed.

Lemma fle_mono m' m e B : 0 <= m' <= m -> fle m e B -> fle m' e B.
Proof.
  unfold fle. intros Hm H. pose proof (pow2_gt0 (Z.max e 0) ltac:(lia)). nia.
Qed.

Lemma fle_shift m n e B :
  0 <= m -> 0 <= n -> fle m e B -> fle (m / 2 ^ n) (e + n) B.
Proof.
  unfold fle. intros Hm Hn H.
  assert (HP : 0 < 2 ^ n) by (by apply pow2_gt0).
  pose proof (Z.mul_div_le m (2 ^ n) HP) as Hd.
  pose proof (Z.div_pos m (2 ^ n) Hm HP) as Hq.
  destruct (Z_le_gt_dec 0 e) as [He|He].
  - rewrite Z.max_l in H by lia. rewrite (Z.max_r (- e) 0) in H by lia.
    rewrite Z.max_l by lia. rewrite (Z.max_r (- (e + n)) 0) by lia.
    rewrite Z.add_comm, pow2_split by lia.
    pose proof (pow2_gt0 e ltac:(lia)). nia.
  - rewrite Z.max_r in H by lia. rewrite (Z.max_l (- e) 0) in H by lia.
    destruct (Z_le_gt_dec 0 (e + n)) as [Hen|Hen].
    + rewrite Z.max_l by lia. rewrite (Z.max_r (- (e + n)) 0) by lia.
      assert (E : 2 ^ n = 2 ^ (e + n) * 2 ^ (- e)) by (rewrite <- pow2_split; [f_equal|..]; lia).
      pose proof (pow2_gt0 (- e) ltac:(lia)).
      pose proof (pow2_gt0 (e + n) ltac:(lia)).
      rewrite Z.pow_0_r, Z.mul_1_r in *. nia.
    + rewrite Z.max_r by lia. rewrite (Z.max_l (- (e + n)) 0) by lia.
      assert (E : 2 ^ (- e) = 2 ^ (- (e + n)) * 2 ^ n) by (rewrite <- pow2_split; [f_equal|..]; lia).
      pose proof (pow2_gt0 (- (e + n)) ltac:(lia)).
      rewrite Z.pow_0_r, Z.mul_1_r in *. nia.
Qed.

Lemma fle_shift_up k M n e B :
  0 <= k -> 0 < n -> e + n <= 0 -> k * 2 ^ n < M -> fle M e B -> fle (k + 1) (e + n) B.
Proof.
  unfold fle. intros Hk Hn Hen HM H.
  rewrite Z.max_r in H by lia. rewrite (Z.max_l (- e) 0) in H by lia.
  rewrite Z.max_r by lia. rewrite (Z.max_l (- (e + n)) 0) by lia.
  assert (E : 2 ^ (- e) = 2 ^ (- (e + n)) * 2 ^ n) by (rewrite <- pow2_split; [f_equal|..]; lia).
  pose proof (pow2_gt0 n ltac:(lia)).
  rewrite Z.pow_0_r, Z.mul_1_r in *. nia.
Qed.

Lemma fle_shl m k e B : 0 <= m -> 0 <= k -> fle m e B -> fle (m * 2 ^ k) (e - k) B.
Proof.
  unfold fle. intros Hm Hk H.
  pose proof (pow2_gt0 k Hk).
  destruct (Z_le_gt_dec 0 (e - k)) as [H1|H1].
  - rewrite Z.max_l in * by lia. rewrite (Z.max_r (- e) 0), (Z.max_r (- (e - k)) 0) in * by lia.
    replace e with ((e - k) + k) in H by lia. rewrite pow2_split in H by lia. nia.
  - rewrite (Z.max_r (e - k) 0), (Z.max_l (- (e - k)) 0) by lia.
    destruct (Z_le_gt_dec 0 e) as [H2|H2].
    + rewrite Z.max_l, Z.max_r in H by lia.
      replace (- (e - k)) with (e + (k - e) - e + - e + e) by lia.
      replace (e + (k - e) - e + - e + e) with ((k - e) + 0) by lia.
      rewrite Z.add_0_r.
      assert (E : 2 ^ k = 2 ^ (k - e) * 2 ^ e) by (rewrite <- pow2_split; [f_equal|..]; lia).
      pose proof (pow2_gt0 (k - e) ltac:(lia)).
      rewrite Z.pow_0_r in *. nia.
    + rewrite Z.max_r, Z.max_l in H by lia.
      assert (E : 2 ^ (- (e - k)) = 2 ^ (- e) * 2 ^ k) by (rewrite <- pow2_split; [f_equal|..]; lia).
      rewrite Z.pow_0_r in *. nia.
Qed.

Lemma fle_exp_le m e B : 1 <= m -> 0 < B < 128 -> fle m e B -> e <= 6.
Proof.
  unfold fle. intros Hm HB H. destruct (Z_le_gt_dec e 6) as [|He]; [done|].
  rewrite Z.max_l, Z.max_r, Z.pow_0_r in H by lia.
  assert (2 ^ 7 <= 2 ^ e) by (apply Z.pow_le_mono_r; lia). nia.
Qed.

Lemma digits2_pos_size p : digits2_pos p = Pos.size p.
Proof. induction p; simpl; congruence. Qed.

Lemma size_bounds p :
  2 ^ (Zpos (Pos.size p) - 1) <= Zpos p < 2 ^ Zpos (Pos.size p).
Proof.
  pose proof (Pos.size_gt p) as Hgt. pose proof (Pos.size_le p) as Hle.
  apply Pos2Z.pos_lt_pos in Hgt. apply Pos2Z.pos_le_pos in Hle.
  rewrite Pos2Z.inj_pow in Hgt, Hle.
  assert (E : 2 ^ Zpos (Pos.size p) = 2 * 2 ^ (Zpos (Pos.size p) - 1)).
  { rewrite <- Z.pow_succ_r by lia. f_equal. lia. }
  lia.
Qed.

Lemma size_unique p s : 1 <= s -> 2 ^ (s - 1) <= Zpos p < 2 ^ s -> Zpos (Pos.size p) = s.
Proof.
  intros Hs [H1 H2]. pose proof (size_bounds p) as [H3 H4].
  destruct (Z.lt_trichotomy (Zpos (Pos.size p)) s) as [Hlt|[Heq|Hgt]]; [|done|].
  - assert (2 ^ Zpos (Pos.size p) <= 2 ^ (s - 1)) by (apply Z.pow_le_mono_r; lia). lia.
  - assert (2 ^ s <= 2 ^ (Zpos (Pos.size p) - 1)) by (apply Z.pow_le_mono_r; lia). lia.
Qed.

Lemma iter_pos_nat {A} (f : A -> A) p x : @SpecFloat.iter_pos A f p x = Nat.iter (Pos.to_nat p) f x.
Proof.
  revert x. induction p as [p IH|p IH|]; intros x; cbn [SpecFloat.iter_pos].
  - rewrite Pos2Nat.inj_xI, !IH, Nat.iter_succ_r.
    replace (2 * Pos.to_nat p)%nat with (Pos.to_nat p + Pos.to_nat p)%nat by lia.
    by rewrite Nat.iter_add.
  - rewrite Pos2Nat.inj_xO, !IH.
    replace (2 * Pos.to_nat p)%nat with (Pos.to_nat p + Pos.to_nat p)%nat by lia.
    by rewrite Nat.iter_add.
  - done.
Qed.

Lemma shr_1_spec mrs :
  0 <= shr_m mrs ->
  shr_m (shr_1 mrs) = shr_m mrs / 2 /\ shr_r (shr_1 mrs) = Z.odd (shr_m mrs) /\
  shr_s (shr_1 mrs) = (shr_r mrs || shr_s mrs)%bool.
Proof.
  destruct mrs as [m r s]; simpl. intros Hm.
  destruct m as [|[p|p|]|p]; simpl; try lia; (split; [|done]).
  all: first [reflexivity | apply Z.div_unique with 1; lia
             | apply Z.div_unique with 0; lia].
Qed.

Lemma shr_iter k mrs :
  0 <= shr_m mrs ->
  shr_m (Nat.iter k shr_1 mrs) = shr_m mrs / 2 ^ Z.of_nat k /\
  ((shr_r (Nat.iter k shr_1 mrs) || shr_s (Nat.iter k shr_1 mrs))%bool = false <->
   shr_m mrs mod 2 ^ Z.of_nat k = 0 /\ shr_r mrs = false /\ shr_s mrs = false).
Proof.
  intros Hm. induction k as [|k [IHm IHf]]; simpl.
  - rewrite Z.div_1_r, Z.mod_1_r, orb_false_iff. intuition.
  - set (r := Nat.iter k shr_1 mrs) in *.
    assert (HP : 0 < 2 ^ Z.of_nat k) by (apply pow2_gt0; lia).
    assert (Hr : 0 <= shr_m r) by (rewrite IHm; by apply Z.div_pos).
    destruct (shr_1_spec r Hr) as (E1 & E2 & E3).
    assert (Epow : 2 ^ Z.of_nat (S k) = 2 ^ Z.of_nat k * 2)
      by (rewrite Nat2Z.inj_succ, Z.pow_succ_r by lia; lia).
    rewrite E1, E2, E3, IHm, Epow, Z.div_div by lia. split; [done|].
    rewrite orb_false_iff. split.
    + intros [Hodd Hf]. destruct (proj1 IHf Hf) as (Hmod & Hr0 & Hs0).
      apply Z.mod_divide in Hmod as [c Hc]; [|lia].
      rewrite Hc, Z.div_mul in Hodd by lia.
      pose proof (Zmod_odd c) as Hc2. rewrite Hodd in Hc2.
      rewrite (Z.div_mod c 2) in Hc by lia. rewrite Hc2 in Hc.
      rewrite Hc. replace ((2 * (c / 2) + 0) * 2 ^ Z.of_nat k) with
        ((c / 2) * (2 ^ Z.of_nat k * 2)) by lia.
      split; [apply Z.mod_mul; lia|by split].
    + intros [Hmod Hf]. apply Z.mod_divide in Hmod as [c Hc]; [|lia].
      assert (Hk : shr_m mrs mod 2 ^ Z.of_nat k = 0).
      { rewrite Hc. replace (c * (2 ^ Z.of_nat k * 2)) with ((c * 2) * 2 ^ Z.of_nat k) by lia.
        apply Z.mod_mul; lia. }
      split; [|apply IHf; split; [exact Hk|exact Hf]].
      rewrite Hc. replace (c * (2 ^ Z.of_nat k * 2)) with ((c * 2) * 2 ^ Z.of_nat k) by lia.
      rewrite Z.div_mul by lia. rewrite Z.odd_mul. apply andb_false_r.
Qed.

Lemma shr_iter_pos p mrs :
  0 <= shr_m mrs ->
  shr_m (SpecFloat.iter_pos shr_1 p mrs) = shr_m mrs / 2 ^ Zpos p /\
  ((shr_r (SpecFloat.iter_pos shr_1 p mrs) || shr_s (SpecFloat.iter_pos shr_1 p mrs))%bool = false <->
   shr_m mrs mod 2 ^ Zpos p = 0 /\ shr_r mrs = false /\ shr_s mrs = false).
Proof. intros Hm. rewrite iter_pos_nat, <- (positive_nat_Z p). by apply shr_iter. Qed.

Lemma record_of_loc_m m l : shr_m (shr_record_of_loc m l) = m.
Proof. by destruct l as [|[]]. Qed.

Lemma record_of_loc_loc m l : loc_of_shr_record (shr_record_of_loc m l) = l.
Proof. by destruct l as [|[]]. Qed.

Lemma record_of_loc_flags m l :
  shr_r (shr_record_of_loc m l) = false /\ shr_s (shr_record_of_loc m l) = false <-> l = loc_Exact.
Proof. destruct l as [|[]]; simpl; intuition congruence. Qed.

Lemma loc_of_record_exact mrs :
  loc_of_shr_record mrs = loc_Exact <-> (shr_r mrs || shr_s mrs)%bool = false.
Proof. destruct mrs as [m [] []]; simpl; intuition congruence. Qed.

Lemma round_nearest_even_bounds m l :
  m <= round_nearest_even m l <= m + loc_excess l.
Proof. destruct l as [|[]]; simpl; try lia. destruct (Z.even m); lia. Qed.

Lemma fexp_le_zero mx ex B :
  0 <= mx -> 0 < B < 128 -> fle mx ex B ->
  ex < fexp prec emax (Zdigits2 mx + ex) -> fexp prec emax (Zdigits2 mx + ex) <= 0.
Proof.
  intros Hm HB H Hlt. unfold fexp, emin, prec, emax in *.
  destruct mx as [|p|p]; [simpl in *; lia| |lia].
  cbn [Zdigits2] in *. rewrite digits2_pos_size in *.
  pose proof (size_bounds p) as [Hs1 _].
  assert (Zpos (Pos.size p) + ex <= 7); [|lia].
  unfold fle in H. destruct (Z_le_gt_dec 0 ex).
  - rewrite Z.max_l, Z.max_r, Z.pow_0_r in H by lia.
    assert (H0 : 2 ^ (Zpos (Pos.size p) - 1 + ex) < 2 ^ 7).
    { rewrite pow2_split by lia. pose proof (pow2_gt0 ex ltac:(lia)). nia. }
    rewrite <- Z.pow_lt_mono_r_iff in H0 by lia. lia.
  - rewrite Z.max_r, Z.max_l, Z.pow_0_r in H by lia.
    assert (H0 : 2 ^ (Zpos (Pos.size p) - 1) < 2 ^ (7 + - ex)).
    { rewrite pow2_split by lia. pose proof (pow2_gt0 (- ex) ltac:(lia)). nia. }
    rewrite <- Z.pow_lt_mono_r_iff in H0 by lia. lia.
Qed.

Lemma loc_excess_bounds l : 0 <= loc_excess l <= 1.
Proof. destruct l; simpl; lia. Qed.

Lemma round_first mx ex lx B :
  0 <= mx -> 0 < B < 128 -> fle (mx + loc_excess lx) ex B ->
  let '(mrs', e') := shr_fexp prec emax mx ex lx in
  0 <= round_nearest_even (shr_m mrs') (loc_of_shr_record mrs') /\
  fle (round_nearest_even (shr_m mrs') (loc_of_shr_record mrs')) e' B.
Proof.
  intros Hm HB H. pose proof (loc_excess_bounds lx) as Hexc.
  unfold shr_fexp, shr.
  destruct (fexp prec emax (Zdigits2 mx + ex) - ex) as [|p|p] eqn:Hn.
  - rewrite record_of_loc_m, record_of_loc_loc.
    pose proof (round_nearest_even_bounds mx lx). split; [lia|].
    apply (fle_mono _ (mx + loc_excess lx)); [lia|done].
  - assert (Hfe : ex + Zpos p <= 0).
    { assert (Hlt : ex < fexp prec emax (Zdigits2 mx + ex)) by lia.
      pose proof (fexp_le_zero mx ex B Hm HB (fle_mono mx (mx + loc_excess lx) ex B ltac:(lia) H) Hlt).
      lia. }
    destruct (shr_iter_pos p (shr_record_of_loc mx lx)) as [Em Ef];
      [by rewrite record_of_loc_m|].
    rewrite record_of_loc_m in Em, Ef.
    set (r := SpecFloat.iter_pos shr_1 p (shr_record_of_loc mx lx)) in *.
    assert (HP : 0 < 2 ^ Zpos p) by (apply pow2_gt0; lia).
    assert (HK : 0 <= mx / 2 ^ Zpos p) by (by apply Z.div_pos).
    pose proof (round_nearest_even_bounds (shr_m r) (loc_of_shr_record r)) as Hb.
    rewrite Em in Hb |- *.
    destruct ((shr_r r || shr_s r)%bool) eqn:Hrs.
    + pose proof (loc_excess_bounds (loc_of_shr_record r)).
      assert (Hlt : mx / 2 ^ Zpos p * 2 ^ Zpos p < mx + loc_excess lx).
      { pose proof (Z.div_mod mx (2 ^ Zpos p) ltac:(lia)).
        pose proof (Z.mod_pos_bound mx (2 ^ Zpos p) HP).
        destruct lx as [|c]; simpl.
        - destruct (Z.eq_dec (mx mod 2 ^ Zpos p) 0) as [Hz|Hz]; [|nia].
          exfalso. assert (true = false) by (apply Ef; by split). done.
        - nia. }
      split; [lia|]. apply (fle_mono _ (mx / 2 ^ Zpos p + 1)); [lia|].
      by apply (fle_shift_up _ (mx + loc_excess lx)).
    + apply loc_of_record_exact in Hrs. rewrite Hrs. cbn [round_nearest_even].
      split; [done|]. apply fle_shift; [done|lia|].
      apply (fle_mono _ (mx + loc_excess lx)); [lia|done].
  - rewrite record_of_loc_m, record_of_loc_loc.
    pose proof (round_nearest_even_bounds mx lx). split; [lia|].
    apply (fle_mono _ (mx + loc_excess lx)); [lia|done].
Qed.

Lemma shr_fexp_exact_fle m e B :
  0 <= m -> fle m e B ->
  let '(mrs, e') := shr_fexp prec emax m e loc_Exact in 0 <= shr_m mrs /\ fle (shr_m mrs) e' B.
Proof.
  intros Hm H. unfold shr_fexp, shr.
  destruct (fexp prec emax (Zdigits2 m + e) - e) as [|p|p] eqn:Hn; [done| |done].
  destruct (shr_iter_pos p (shr_record_of_loc m loc_Exact)) as [Em _]; [done|].
  rewrite Em. cbn [shr_m shr_record_of_loc].
  split; [apply Z.div_pos; [done|apply pow2_gt0; lia]|]. apply fle_shift; [done|lia|done].
Qed.

Lemma round_aux_bound mx ex lx B :
  0 <= mx -> 0 < B < 128 -> fle (mx + loc_excess lx) ex B ->
  nonneg_le (binary_round_aux prec emax false mx ex lx) B.
Proof.
  intros Hm HB H. pose proof (round_first mx ex lx B Hm HB H) as H1.
  unfold binary_round_aux. revert H1.
  destruct (shr_fexp prec emax mx ex lx) as [mrs' e']. intros [Hv Hf].
  pose proof (shr_fexp_exact_fle _ e' B Hv Hf) as H2. revert H2.
  destruct (shr_fexp prec emax (round_nearest_even (shr_m mrs') (loc_of_shr_record mrs')) e' loc_Exact)
    as [mrs'' e'']. intros [Hm'' Hf''].
  destruct (shr_m mrs'') as [|m|m] eqn:E; [done| |lia].
  pose proof (fle_exp_le (Zpos m) e'' B ltac:(lia) HB Hf'').
  replace (e'' <=? emax - prec) with true by (symmetry; apply Z.leb_le; unfold emax, prec; lia).
  done.
Qed.

Lemma pos_iter_xO mx d : Zpos (Pos.iter xO mx d) = Zpos mx * 2 ^ Zpos d.
Proof.
  induction d as [|d IH] using Pos.peano_ind; [simpl; lia|].
  rewrite Pos.iter_succ, Pos2Z.inj_xO, IH, Pos2Z.inj_succ, Z.pow_succ_r by lia. lia.
Qed.

Lemma shl_align_spec mx ex ex' :
  ex' <= ex ->
  exists mz, shl_align mx ex ex' = (mz, ex') /\ Zpos mz = Zpos mx * 2 ^ (ex - ex').
Proof.
  intros H. unfold shl_align. destruct (ex' - ex) as [|d|d] eqn:E; [|lia|].
  - exists mx. replace ex' with ex by lia. rewrite Z.sub_diag. split; [done|lia].
  - exists (Pos.iter xO mx d). split; [done|]. rewrite pos_iter_xO. do 2 f_equal. lia.
Qed.

Lemma shl_align_ge mx ex ex' : ex <= ex' -> shl_align mx ex ex' = (mx, ex).
Proof. intros H. unfold shl_align. by destruct (ex' - ex) eqn:E; [| |lia]. Qed.

Lemma shl_align_fle mx ex ex' B :
  fle (Zpos mx) ex B ->
  fle (Zpos (fst (shl_align mx ex ex'))) (snd (shl_align mx ex ex')) B.
Proof.
  intros H. destruct (Z_le_gt_dec ex' ex) as [Hle|Hgt].
  - destruct (shl_align_spec mx ex ex' Hle) as (mz & -> & Emz). simpl. rewrite Emz.
    replace ex' with (ex - (ex - ex')) at 2 by lia. apply fle_shl; [lia|lia|done].
  - by rewrite shl_align_ge by lia.
Qed.

Lemma fle_one_exp m e : 1 <= m -> fle m e 1 -> e <= 0 /\ m <= 2 ^ (- e).
Proof.
  unfold fle. intros Hm H. destruct (Z_le_gt_dec e 0) as [He|He].
  - rewrite Z.max_r, Z.max_l, Z.pow_0_r in H by lia. lia.
  - rewrite Z.max_l, Z.max_r, Z.pow_0_r in H by lia.
    assert (2 ^ 1 <= 2 ^ e) by (apply Z.pow_le_mono_r; lia). nia.
Qed.

Lemma js_number_of_Z_spec n :
  1 <= n < 2 ^ 53 ->
  exists m e, js_number_of_Z n = S754_finite false m e /\ Zpos m = n * 2 ^ (- e) /\
    -52 <= e <= 0 /\ Zpos (Pos.size m) = 53.
Proof.
  intros Hn. destruct n as [|p|p]; try lia.
  pose proof (size_bounds p) as [Hs1 Hs2].
  assert (Hs : 1 <= Zpos (Pos.size p) <= 53).
  { split; [lia|]. destruct (Z_le_gt_dec (Zpos (Pos.size p)) 53) as [|Hgt]; [done|].
    assert (2 ^ 53 <= 2 ^ (Zpos (Pos.size p) - 1)) by (apply Z.pow_le_mono_r; lia). lia. }
  unfold js_number_of_Z, binary_normalize, binary_round. rewrite digits2_pos_size.
  replace (fexp prec emax (Zpos (Pos.size p) + 0)) with (Zpos (Pos.size p) - 53)
    by (unfold fexp, emin, prec, emax; lia).
  set (e := Zpos (Pos.size p) - 53).
  destruct (shl_align_spec p 0 e) as (mz & E & Emz); [lia|]. rewrite E.
  assert (Hsz : Zpos (Pos.size mz) = 53).
  { apply size_unique; [lia|]. rewrite Emz.
    assert (E1 : 2 ^ (53 - 1) = 2 ^ (Zpos (Pos.size p) - 1) * 2 ^ (0 - e))
      by (rewrite <- pow2_split by lia; f_equal; lia).
    assert (E2 : 2 ^ 53 = 2 ^ Zpos (Pos.size p) * 2 ^ (0 - e))
      by (rewrite <- pow2_split by lia; f_equal; lia).
    pose proof (pow2_gt0 (0 - e) ltac:(lia)). nia. }
  assert (Hsh : shr_fexp prec emax (Zpos mz) e loc_Exact = (Build_shr_record (Zpos mz) false false, e)).
  { unfold shr_fexp. cbn [Zdigits2]. rewrite digits2_pos_size, Hsz.
    replace (fexp prec emax (53 + e) - e) with 0 by (unfold fexp, emin, prec, emax; lia).
    done. }
  unfold binary_round_aux. rewrite Hsh. cbn [shr_m loc_of_shr_record round_nearest_even].
  rewrite Hsh. cbn [shr_m].
  replace (e <=? emax - prec) with true by (symmetry; apply Z.leb_le; unfold emax, prec; lia).
  exists mz, e. split; [done|]. split; [rewrite Emz; do 2 f_equal; lia|]. split; [lia|done].
Qed.

Lemma div_excess A M K :
  0 <= A -> 0 < M -> A <= M * K -> A / M + (if A mod M =? 0 then 0 else 1) <= K.
Proof.
  intros HA HM HK. pose proof (Z.div_mod A M ltac:(lia)).
  pose proof (Z.mod_pos_bound A M HM).
  destruct (Z.eqb_spec (A mod M) 0); nia.
Qed.

Lemma new_location_excess M r : loc_excess (new_location M r) = if r =? 0 then 0 else 1.
Proof.
  unfold new_location, new_location_even, new_location_odd.
  by destruct (Z.even M), (r =? 0).
Qed.

Lemma js_div_range d L :
  0 <= d <= L -> 1 <= L < 2 ^ 53 ->
  nonneg_le (js_div (js_number_of_Z d) (js_number_of_Z L)) 1.
Proof.
  intros Hd HL.
  destruct (js_number_of_Z_spec L HL) as (m2 & e2 & E2 & Em2 & He2 & Hs2).
  destruct (Z.eq_dec d 0) as [->|Hd0].
  { unfold js_div. rewrite E2. done. }
  destruct (js_number_of_Z_spec d ltac:(lia)) as (m1 & e1 & E1 & Em1 & He1 & Hs1).
  unfold js_div, SFdiv. rewrite E1, E2. unfold SFdiv_core_binary. cbn [Zdigits2].
  rewrite (digits2_pos_size m1), (digits2_pos_size m2), Hs1, Hs2.
  replace (Z.min (fexp prec emax (53 + e1 - (53 + e2))) (e1 - e2)) with (e1 - e2 - 53)
    by (unfold fexp, emin, prec, emax; lia).
  replace (e1 - e2 - (e1 - e2 - 53)) with 53 by lia.
  rewrite Z.shiftl_mul_pow2 by lia.
  set (A := Zpos m1 * 2 ^ 53).
  assert (Ediv : Z.div_eucl A (Zpos m2) = (A / Zpos m2, A mod Zpos m2))
    by (unfold Z.div, Z.modulo; by destruct (Z.div_eucl A (Zpos m2))).
  rewrite Ediv. cbn [xorb].
  assert (HA : A <= Zpos m2 * 2 ^ (53 - e1 + e2)).
  { unfold A. rewrite Em1, Em2.
    assert (F1 : 2 ^ (- e1) * 2 ^ 53 = 2 ^ (53 - e1)) by (rewrite <- pow2_split by lia; f_equal; lia).
    assert (F2 : 2 ^ (- e2) * 2 ^ (53 - e1 + e2) = 2 ^ (53 - e1))
      by (rewrite <- pow2_split by lia; f_equal; lia).
    pose proof (pow2_gt0 (53 - e1) ltac:(lia)). nia. }
  apply round_aux_bound; [apply Z.div_pos; lia|lia|].
  rewrite new_location_excess.
  pose proof (div_excess A (Zpos m2) _ ltac:(lia) ltac:(lia) HA).
  unfold fle. rewrite Z.max_r, Z.max_l, Z.pow_0_r by lia.
  replace (- (e1 - e2 - 53)) with (53 - e1 + e2) by lia. lia.
Qed.

Lemma normalize_bound N ez B :
  0 <= N -> 0 < B < 128 -> fle N ez B ->
  nonneg_le (binary_normalize prec emax N ez false) B.
Proof.
  intros HN HB H. destruct N as [|p|p]; [done| |lia].
  unfold binary_normalize, binary_round.
  pose proof (shl_align_fle p ez (fexp prec emax (Zpos (digits2_pos p) + ez)) B H) as H1.
  destruct (shl_align p ez (fexp prec emax (Zpos (digits2_pos p) + ez))) as [mz ez'].
  simpl in H1. apply round_aux_bound; [lia|done|]. simpl loc_excess. by rewrite Z.add_0_r.
Qed.

Lemma js_sub_range q : nonneg_le q 1 -> nonneg_le (js_sub (js_number_of_Z 1) q) 1.
Proof.
  intros Hq.
  assert (E1 : js_number_of_Z 1 = S754_finite false 4503599627370496 (-52)) by reflexivity.
  destruct q as [[]|[]| |[] m e]; simpl in Hq; try contradiction.
  - unfold js_sub. rewrite E1. simpl. unfold fle. apply Z.leb_le. by vm_compute.
  - destruct (fle_one_exp (Zpos m) e ltac:(lia) Hq) as [He Hm].
    unfold js_sub, SFsub. rewrite E1. cbn [cond_Zopp].
    set (ez := Z.min (-52) e).
    destruct (shl_align_spec 4503599627370496 (-52) ez) as (m1 & Ea & Em1); [lia|].
    destruct (shl_align_spec m e ez) as (m2 & Eb & Em2); [lia|].
    rewrite Ea, Eb. cbn [fst].
    assert (F1 : 2 ^ 52 * 2 ^ (-52 - ez) = 2 ^ (- ez)) by (rewrite <- pow2_split by lia; f_equal; lia).
    assert (F2 : 2 ^ (- e) * 2 ^ (e - ez) = 2 ^ (- ez)) by (rewrite <- pow2_split by lia; f_equal; lia).
    change 4503599627370496 with (2 ^ 52) in Em1.
    pose proof (pow2_gt0 (e - ez) ltac:(lia)).
    apply normalize_bound; [nia|lia|].
    unfold fle. rewrite Z.max_r, Z.max_l, Z.pow_0_r by lia. nia.
Qed.

Lemma js_mul_range r : nonneg_le r 1 -> nonneg_le (js_mul r (js_number_of_Z 100)) 100.
Proof.
  intros Hr.
  assert (E100 : js_number_of_Z 100 = S754_finite false 7036874417766400 (-46)) by reflexivity.
  destruct r as [[]|[]| |[] m e]; simpl in Hr; try contradiction.
  - unfold js_mul. rewrite E100. done.
  - destruct (fle_one_exp (Zpos m) e ltac:(lia) Hr) as [He Hm].
    unfold js_mul, SFmul. rewrite E100. cbn [xorb].
    apply round_aux_bound; [lia|lia|]. simpl loc_excess. rewrite Z.add_0_r, Pos2Z.inj_mul.
    unfold fle. rewrite Z.max_r, Z.max_l, Z.pow_0_r by lia.
    assert (F : 2 ^ (- (e + -46)) = 2 ^ 46 * 2 ^ (- e)) by (rewrite <- pow2_split by lia; f_equal; lia).
    rewrite F. change (2 ^ 46) with 70368744177664. nia.
Qed.

Lemma Math_round_range x : nonneg_le x 100 -> 0 <= Math_round x <= 100.
Proof.
  destruct x as [[]|[]| |[] m e]; simpl; try tauto; [lia|].
  unfold fle. intros H. destruct (Z.leb_spec 0 e) as [He|He].
  - rewrite Z.max_l, Z.max_r, Z.pow_0_r in H by lia. pose proof (pow2_gt0 e He). nia.
  - rewrite Z.max_r, Z.max_l, Z.pow_0_r in H by lia.
    pose proof (pow2_gt0 (- e) ltac:(lia)).
    assert (F : 2 ^ (1 - e) = 2 * 2 ^ (- e)) by (rewrite <- Z.pow_succ_r by lia; f_equal; lia).
    rewrite F. split; [apply Z.div_pos; lia|].
    assert ((2 * Zpos m + 2 ^ (- e)) / (2 * 2 ^ (- e)) < 101); [|lia].
    apply Z.div_lt_upper_bound; lia.
Qed.

(** The float value of [Math.round((1 - d / L) * 100)] lies in [0, 100]. *)
Lemma similarity_float_range d L :
  0 <= d <= L -> 1 <= L < 2 ^ 53 ->
  0 <= Math_round (js_mul (js_sub (js_number_of_Z 1) (js_div (js_number_of_Z d) (js_number_of_Z L)))
                          (js_number_of_Z 100)) <= 100.
Proof.
  intros Hd HL. apply Math_round_range, js_mul_range, js_sub_range, js_div_range; lia.
Qed.

(** ** Range of [similarity] *)

Lemma edit_script_del_all a : edit_script a [] (length a).
Proof. induction a; simpl; constructor; auto. Qed.

Lemma edit_script_ins_all b : edit_script [] b (length b).
Proof. induction b; simpl; constructor; auto. Qed.

Lemma cost_le_1 x y : (cost x y <= 1)%nat.
Proof. unfold cost. destruct (x =? y); lia. Qed.

Lemma edit_script_max a : forall b,
  exists n, edit_script a b n /\ (n <= Nat.max (length a) (length b))%nat.
Proof.
  induction a as [|x a IH]; intros b.
  - exists (length b). split; [apply edit_script_ins_all|simpl; lia].
  - destruct b as [|y b].
    + exists (length (x :: a)). split; [apply edit_script_del_all|simpl; lia].
    + destruct (IH b) as (n & Hn & Hle). exists (n + cost x y)%nat.
      split; [by apply es_sub|]. pose proof (cost_le_1 x y). simpl. lia.
Qed.

Lemma lev_le_max a b : (lev a b <= Nat.max (length a) (length b))%nat.
Proof.
  destruct (edit_script_max a b) as (n & Hn & Hle).
  pose proof (lev_le_script a b n Hn). lia.
Qed.

Lemma similarity_range a b :
  Z.of_nat (length a) < 2 ^ 53 -> Z.of_nat (length b) < 2 ^ 53 ->
  0 <= similarity a b <= 100.
Proof.
  intros Ha Hb. pose proof (lev_le_max a b) as Hl.
  destruct a as [|x a], b as [|y b]; unfold similarity; try lia.
  apply similarity_float_range; simpl length in *; lia.
Qed.

Lemma edit_script_hamming a b : length a = length b -> edit_script a b (hamming a b).
Proof.
  revert b. induction a as [|x a IH]; intros [|y b] H; simpl in *; try lia.
  - constructor.
  - apply es_sub. apply IH. lia.
Qed.

Lemma edit_script_count c a b n :
  edit_script a b n -> (count_occ Z.eq_dec b c <= count_occ Z.eq_dec a c + n)%nat.
Proof.
  induction 1 as [|x a b n _ IH|y a b n _ IH|x y a b n _ IH]; simpl; try lia.
  - destruct (Z.eq_dec x c); lia.
  - destruct (Z.eq_dec y c); lia.
  - unfold cost. destruct (Z.eq_dec x c), (Z.eq_dec y c), (Z.eqb_spec x y); subst; try lia;
      congruence.
Qed.

(** ** Matching *)

Lemma is_prefix_spec p s : is_prefix p s = bool_decide (take (length p) s = p).
Proof.
  revert s. induction p as [|x p IH]; intros [|y s]; simpl.
  - done.
  - done.
  - done.
  - rewrite IH. destruct (Z.eqb_spec x y) as [->|Hne]; simpl.
    + apply bool_decide_ext. split; [by intros ->|by injection 1].
    + symmetry. apply bool_decide_eq_false. congruence.
Qed.

Lemma existsb_map_fn {A B} (f : B -> bool) (g : A -> B) l :
  existsb f (map g l) = existsb (fun x => f (g x)) l.
Proof. induction l; simpl; congruence. Qed.

Lemma contains_cons c y x :
  contains (c :: y) x = (bool_decide (take (length x) (c :: y) = x) || contains y x)%bool.
Proof.
  unfold contains. cbn [length seq existsb]. rewrite drop_0. f_equal.
  rewrite <- seq_shift, existsb_map_fn. done.
Qed.

Lemma includes_contains y x : includes y x = contains y x.
Proof.
  induction y as [|c y IH].
  - unfold contains. simpl. rewrite is_prefix_spec. by rewrite orb_false_r.
  - rewrite contains_cons, <- IH. simpl. by rewrite is_prefix_spec.
Qed.

Lemma existsb_bool_decide {A} (P : A -> Prop) `{forall x, Decision (P x)} l :
  existsb (fun x => bool_decide (P x)) l = bool_decide (Exists P l).
Proof.
  induction l as [|x l IH]; simpl.
  - done.
  - rewrite IH, <- bool_decide_or. apply bool_decide_ext. by rewrite Exists_cons.
Qed.

Lemma calculateMatch_eq lc target spoken alts :
  calculateMatch lc target spoken alts = Ok (classify_spec lc target spoken alts).
Proof.
  unfold calculateMatch, classify_spec.
  rewrite (existsb_bool_decide (fun alt => normalizeString lc alt = normalizeString lc target)).
  rewrite calculateSimilarity_value, !includes_contains.
  rewrite (bool_decide_ext (normalizeString lc target = normalizeString lc spoken)
                           (normalizeString lc spoken = normalizeString lc target))
    by (split; by intros ->).
  simpl. by repeat case_match.
Qed.

Lemma Ok_inj {A} (a b : A) : Ok a = Ok b -> a = b.
Proof. by injection 1. Qed.

(** ** Claims on the classifier and the similarity score *)

(** C1: for every target, spoken transcript and list of alternatives,
    [calculateMatch] returns the result of the ordered rule set of the
    specification: exact match, then an alternative, then "spoken contains
    target", then "target contains spoken (longer than 2)", then the 80/60/40
    thresholds on the similarity of the normalized strings. *)
Theorem calculateMatch_follows_rules toLowerCase target spoken alternatives :
  calculateMatch toLowerCase target spoken alternatives
  = Ok (classify_spec toLowerCase target spoken alternatives).
Proof. apply calculateMatch_eq. Qed.

(** C3 (counterexample): for forty [a]s against twenty-three [a]s followed
    by seventeen [b]s, the edit distance is 17 and the longer length 40, so
    round((1 - 17/40) * 100) = round(57.5) = 58; [calculateSimilarity]
    returns 57, because 1 - 17/40 evaluates to 0.42499999999999999 in
    binary64 and the product to 57.49999999999999. *)
Lemma calculateSimilarity_rounding_gap :
  is_edit_distance rounding_gap_a rounding_gap_b 17 /\
  Nat.max (length rounding_gap_a) (length rounding_gap_b) = 40%nat /\
  exact_percent 17 40 = 58 /\
  calculateSimilarity rounding_gap_a rounding_gap_b = Ok 57.
Proof.
  split; [split|split; [reflexivity|split; [reflexivity|vm_compute; reflexivity]]].
  - replace 17%nat with (hamming rounding_gap_a rounding_gap_b) by (vm_compute; reflexivity).
    apply edit_script_hamming. reflexivity.
  - intros n Hn. pose proof (edit_script_count 98 _ _ _ Hn) as Hc.
    assert (Eb : count_occ Z.eq_dec rounding_gap_b 98 = 17%nat) by (vm_compute; reflexivity).
    assert (Ea : count_occ Z.eq_dec rounding_gap_a 98 = 0%nat) by (vm_compute; reflexivity).
    lia.
Qed.

(** C3 (amended): for strings of lengths below 2^53, [calculateSimilarity a b]
    returns a value [r] in [0, 100]: 100 when both are empty, 0 when exactly
    one is, and otherwise [Math.round] of the binary64 evaluation of
    (1 - d / L) * 100, with [d] the edit distance and [L] the longer length
    (which can be one below the exactly rounded value, see
    [calculateSimilarity_rounding_gap]). *)
Theorem calculateSimilarity_result a b :
  Z.of_nat (length a) < 2 ^ 53 -> Z.of_nat (length b) < 2 ^ 53 ->
  exists d r, is_edit_distance a b d /\ calculateSimilarity a b = Ok r /\ 0 <= r <= 100 /\
    (a = [] -> b = [] -> r = 100) /\
    (a = [] -> b <> [] -> r = 0) /\
    (a <> [] -> b = [] -> r = 0) /\
    (a <> [] -> b <> [] ->
     r = Math_round (js_mul (js_sub (js_number_of_Z 1)
                                    (js_div (js_number_of_Z (Z.of_nat d))
                                            (js_number_of_Z (Z.of_nat (Nat.max (length a) (length b))))))
                            (js_number_of_Z 100))).
Proof.
  intros Ha Hb. exists (lev a b), (similarity a b).
  split; [apply lev_is_edit_distance|].
  split; [apply calculateSimilarity_value|].
  split; [by apply similarity_range|].
  destruct a as [|x a], b as [|y b]; unfold similarity;
    repeat split; intros; congruence.
Qed.

(** C4: [calculateSimilarity] is symmetric. *)
Theorem calculateSimilarity_symmetric a b :
  calculateSimilarity a b = calculateSimilarity b a.
Proof.
  rewrite !calculateSimilarity_value. f_equal.
  destruct a as [|x a], b as [|y b]; unfold similarity; try done.
  rewrite (lev_sym (x :: a)), (Nat.max_comm (length (x :: a))). done.
Qed.

(** C5: [calculateMatch] is total: every input yields a result (one of the
    seven tiers) and no input reaches the error path of the model (no
    TypeError and no read of an unset matrix cell). *)
Theorem calculateMatch_total toLowerCase target spoken alternatives :
  exists r : VoicePracticeResult, calculateMatch toLowerCase target spoken alternatives = Ok r.
Proof. eexists. apply calculateMatch_eq. Qed.

(** C6: "good morning" against "good afternoon" without alternatives has
    similarity 50 (edit distance 7 over 14 characters), well below 80, and
    tier tryagain, with score 50; for any lowercasing that leaves these two
    lowercase strings unchanged. *)
Theorem calculateMatch_good_morning toLowerCase :
  toLowerCase (js_of_string "good morning") = js_of_string "good morning" ->
  toLowerCase (js_of_string "good afternoon") = js_of_string "good afternoon" ->
  calculateMatch toLowerCase (js_of_string "good morning") (js_of_string "good afternoon") []
  = Ok {| score := 50; feedback := tryagain; transcript := js_of_string "good afternoon" |} /\
  similarity (js_of_string "good morning") (js_of_string "good afternoon") = 50.
Proof.
  intros H1 H2. split.
  - unfold calculateMatch, normalizeString. rewrite H1, H2. vm_compute. reflexivity.
  - assert (E : calculateSimilarity (js_of_string "good morning") (js_of_string "good afternoon") = Ok 50)
      by (vm_compute; reflexivity).
    rewrite calculateSimilarity_value in E. exact (Ok_inj _ _ E).
Qed.

Lemma calculateMatch_good_morning_witness :
  calculateMatch ascii_toLowerCase (js_of_string "good morning") (js_of_string "good afternoon") []
  = Ok {| score := 50; feedback := tryagain; transcript := js_of_string "good afternoon" |} /\
  similarity (js_of_string "good morning") (js_of_string "good afternoon") = 50.
Proof.
  apply (calculateMatch_good_morning ascii_toLowerCase); vm_compute; reflexivity.
Defined.

(** C9: the score of [calculateMatch] agrees with its tier: perfect 100,
    excellent 95, good at least 80, partial at least 70, close 60 to 79,
    tryagain 40 to 59, different 0 to 39 (for normalized strings of length
    below 2^53, as every JS string is). *)
Theorem calculateMatch_score_tier toLowerCase target spoken alternatives r :
  Z.of_nat (length (normalizeString toLowerCase target)) < 2 ^ 53 ->
  Z.of_nat (length (normalizeString toLowerCase spoken)) < 2 ^ 53 ->
  calculateMatch toLowerCase target spoken alternatives = Ok r ->
  match feedback r with
  | perfect => score r = 100
  | excellent => score r = 95
  | good => 80 <= score r
  | partial => 70 <= score r
  | close => 60 <= score r <= 79
  | tryagain => 40 <= score r <= 59
  | different => 0 <= score r <= 39
  end.
Proof.
  intros Ht Hs E. rewrite calculateMatch_eq in E. injection E as <-.
  pose proof (similarity_range _ _ Ht Hs) as Hr.
  unfold classify_spec.
  repeat case_match; cbn [feedback score] in *; try discriminate;
    repeat match goal with
           | H : (_ <=? _) = true |- _ => apply Z.leb_le in H
           | H : (_ <=? _) = false |- _ => apply Z.leb_gt in H
           end; lia.
Qed.

Lemma calculateMatch_score_tier_witness :
  Z.of_nat (length (normalizeString ascii_toLowerCase (js_of_string "Good morning!"))) < 2 ^ 53 /\
  Z.of_nat (length (normalizeString ascii_toLowerCase (js_of_string "good afternoon"))) < 2 ^ 53 /\
  calculateMatch ascii_toLowerCase (js_of_string "Good morning!") (js_of_string "good afternoon") []
  = Ok {| score := 50; feedback := tryagain; transcript := js_of_string "good afternoon" |} /\
  40 <= 50 <= 59.
Proof.
  assert (H1 : Z.of_nat (length (normalizeString ascii_toLowerCase (js_of_string "Good morning!"))) < 2 ^ 53)
    by (vm_compute; reflexivity).
  assert (H2 : Z.of_nat (length (normalizeString ascii_toLowerCase (js_of_string "good afternoon"))) < 2 ^ 53)
    by (vm_compute; reflexivity).
  assert (H3 : calculateMatch ascii_toLowerCase (js_of_string "Good morning!") (js_of_string "good afternoon") []
             = Ok {| score := 50; feedback := tryagain; transcript := js_of_string "good afternoon" |})
    by (vm_compute; reflexivity).
  split; [exact H1|split; [exact H2|split; [exact H3|]]].
  exact (calculateMatch_score_tier ascii_toLowerCase _ _ _ _ H1 H2 H3).
Defined.

Lemma calculateSimilarity_result_witness :
  Z.of_nat (length (js_of_string "abc")) < 2 ^ 53 /\
  Z.of_nat (length (js_of_string "abd")) < 2 ^ 53 /\
  exists d r, is_edit_distance (js_of_string "abc") (js_of_string "abd") d /\
    calculateSimilarity (js_of_string "abc") (js_of_string "abd") = Ok r /\ 0 <= r <= 100.
Proof.
  assert (H1 : Z.of_nat (length (js_of_string "abc")) < 2 ^ 53) by (vm_compute; reflexivity).
  assert (H2 : Z.of_nat (length (js_of_string "abd")) < 2 ^ 53) by (vm_compute; reflexivity).
  split; [exact H1|split; [exact H2|]].
  destruct (calculateSimilarity_result _ _ H1 H2) as (d & r & Hd & Hr & Hrange & _).
  exists d, r. split; [exact Hd|split; [exact Hr|exact Hrange]].
Defined.

(** ** Claims on the review step (modelled from the spec) *)

Lemma recordReview_inl q r now :
  recordReview q r now = inl InvalidRating <-> ~ (1 <= r <= 5).
Proof.
  unfold recordReview.
  destruct (Z.leb_spec 1 r), (Z.leb_spec r 5); simpl; split; intros; try discriminate; try lia; done.
Qed.

(** C7: from a level in [0, 5] and a rating in [1, 5], [recordReview]
    succeeds with level min(level + 1, 5) for a rating of at least 3 and
    max(level - 1, 0) below 3, so the new level stays in [0, 5]. *)
Theorem recordReview_level_bounds p rating now :
  0 <= level p <= 5 -> 1 <= rating <= 5 ->
  exists p', recordReview p rating now = inr p' /\
    (3 <= rating -> level p' = Z.min (level p + 1) 5) /\
    (rating < 3 -> level p' = Z.max (level p - 1) 0) /\
    0 <= level p' <= 5.
Proof.
  intros Hl Hr. unfold recordReview.
  replace ((1 <=? rating) && (rating <=? 5))%bool with true
    by (symmetry; apply andb_true_iff; split; apply Z.leb_le; lia).
  eexists. split; [reflexivity|]. cbn [level].
  destruct (Z.leb_spec 3 rating); repeat split; intros; lia.
Qed.

Lemma recordReview_level_bounds_witness :
  0 <= level {| cardId := "arvo"%string; level := 5; lastReviewedAt := None; dueAt := None |} <= 5 /\
  1 <= 4 <= 5 /\
  exists p', recordReview {| cardId := "arvo"%string; level := 5; lastReviewedAt := None; dueAt := None |} 4 0
             = inr p' /\ 0 <= level p' <= 5.
Proof.
  assert (H1 : 0 <= level {| cardId := "arvo"%string; level := 5; lastReviewedAt := None; dueAt := None |} <= 5)
    by (simpl; lia).
  assert (H2 : 1 <= 4 <= 5) by lia.
  split; [exact H1|split; [exact H2|]].
  destruct (recordReview_level_bounds _ 4 0 H1 H2) as (p' & E & _ & _ & Hb).
  exists p'. split; [exact E|exact Hb].
Defined.

(** C8: [recordReview] fails exactly when the rating is outside 1..5 (so for
    0 and for 6), its only failure is [InvalidRating], and a failed review
    leaves the progress store unchanged. *)
Theorem recordReview_invalid_rating p rating now :
  (recordReview p rating now = inl InvalidRating <-> ~ (1 <= rating <= 5)) /\
  (forall e, recordReview p rating now = inl e -> e = InvalidRating) /\
  recordReview p 0 now = inl InvalidRating /\
  recordReview p 6 now = inl InvalidRating /\
  (forall store id, ~ (1 <= rating <= 5) ->
   updateCardProgress store id rating now = (inl InvalidRating, store)).
Proof.
  split; [apply recordReview_inl|]. split.
  { intros e _. by destruct e. }
  split; [apply recordReview_inl; lia|]. split; [apply recordReview_inl; lia|].
  intros store id Hn. unfold updateCardProgress.
  by rewrite (proj2 (recordReview_inl _ rating now) Hn).
Qed.

Lemma recordReview_invalid_rating_witness :
  updateCardProgress ∅ "arvo"%string 6 0 = (inl InvalidRating, ∅) /\
  recordReview {| cardId := "arvo"%string; level := 0; lastReviewedAt := None; dueAt := None |} 0 0
  = inl InvalidRating.
Proof.
  destruct (recordReview_invalid_rating
              {| cardId := "arvo"%string; level := 0; lastReviewedAt := None; dueAt := None |} 6 0)
    as (_ & _ & H0 & _ & Hs).
  split; [apply Hs; lia|].
  destruct (recordReview_invalid_rating
              {| cardId := "arvo"%string; level := 0; lastReviewedAt := None; dueAt := None |} 0 0)
    as (_ & _ & H & _ & _).
  exact H.
Defined.

(** ** Further properties of the voice practice code and the review screen *)

Lemma classify_spec_drop_alt lc t s a alts :
  normalizeString lc a = normalizeString lc s ->
  classify_spec lc t s (a :: alts) = classify_spec lc t s alts.
Proof.
  intros Ha. unfold classify_spec.
  destruct (bool_decide (normalizeString lc s = normalizeString lc t)) eqn:E; [done|].
  apply bool_decide_eq_false in E.
  rewrite (bool_decide_ext (Exists (fun alt => normalizeString lc alt = normalizeString lc t) (a :: alts))
                           (Exists (fun alt => normalizeString lc alt = normalizeString lc t) alts));
    [done|].
  rewrite Exists_cons. split; [intros [H|H]; [congruence|done]|auto].
Qed.

Lemma contains_nil_r y : contains y [] = true.
Proof. unfold contains. simpl. done. Qed.

Lemma contains_nil_l x : x <> [] -> contains [] x = false.
Proof.
  intros Hx. unfold contains. simpl. rewrite orb_false_r.
  apply bool_decide_eq_false. destruct x; simpl; done.
Qed.

Lemma similarity_nil_l b : b <> [] -> similarity [] b = 0.
Proof. by destruct b. Qed.

Lemma similarity_nil_r a : a <> [] -> similarity a [] = 0.
Proof. by destruct a. Qed.


(** X2: every result of [calculateMatch] has a score in [0, 100] and carries the spoken text unchanged as its transcript (normalized strings of length below 2^53). *)
Theorem calculateMatch_score_range toLowerCase target spoken alternatives r :
  Z.of_nat (length (normalizeString toLowerCase target)) < 2 ^ 53 ->
  Z.of_nat (length (normalizeString toLowerCase spoken)) < 2 ^ 53 ->
  calculateMatch toLowerCase target spoken alternatives = Ok r ->
  0 <= score r <= 100 /\ transcript r = spoken.
Proof.
  intros Ht Hs E. rewrite calculateMatch_eq in E. apply Ok_inj in E. subst r.
  pose proof (similarity_range _ _ Ht Hs) as Hr.
  unfold classify_spec. repeat case_match; cbn [score transcript]; split; try done; lia.
Qed.

(** X3: a target that normalizes to the empty string, against a spoken text that does not, gives excellent 95 when some alternative normalizes to the empty string, and otherwise good with score 85 (the empty target is contained in every string; the similarity is 0). *)
Theorem calculateMatch_empty_target toLowerCase target spoken alternatives :
  normalizeString toLowerCase target = [] ->
  normalizeString toLowerCase spoken <> [] ->
  calculateMatch toLowerCase target spoken alternatives
  = Ok (if bool_decide (Exists (fun alt => normalizeString toLowerCase alt = []) alternatives)
        then {| score := 95; feedback := excellent; transcript := spoken |}
        else {| score := 85; feedback := good; transcript := spoken |}).
Proof.
  intros Ht Hs. rewrite calculateMatch_eq. f_equal. unfold classify_spec. rewrite Ht.
  rewrite bool_decide_eq_false_2 by done.
  destruct (decide (Exists (fun alt => normalizeString toLowerCase alt = []) alternatives)) as [E|E].
  - by rewrite !bool_decide_eq_true_2 by done.
  - rewrite !bool_decide_eq_false_2 by done.
    rewrite contains_nil_r, similarity_nil_l by done. done.
Qed.

(** X4: a spoken text that normalizes to the empty string, against a target that does not, gives excellent 95 when some alternative matches the target, and otherwise different with score 0. *)
Theorem calculateMatch_empty_spoken toLowerCase target spoken alternatives :
  normalizeString toLowerCase spoken = [] ->
  normalizeString toLowerCase target <> [] ->
  calculateMatch toLowerCase target spoken alternatives
  = Ok (if bool_decide (Exists (fun alt => normalizeString toLowerCase alt
                                           = normalizeString toLowerCase target) alternatives)
        then {| score := 95; feedback := excellent; transcript := spoken |}
        else {| score := 0; feedback := different; transcript := spoken |}).
Proof.
  intros Hs Ht. rewrite calculateMatch_eq. f_equal. unfold classify_spec. rewrite Hs.
  rewrite bool_decide_eq_false_2 by (intros E; apply Ht; by rewrite <- E).
  destruct (decide (Exists (fun alt => normalizeString toLowerCase alt
                                      = normalizeString toLowerCase target) alternatives)) as [E|E].
  - by rewrite !bool_decide_eq_true_2 by done.
  - rewrite !bool_decide_eq_false_2 by done.
    rewrite contains_nil_l, similarity_nil_r by done. done.
Qed.

Lemma hamming_self a : hamming a a = 0%nat.
Proof.
  induction a as [|x a IH]; simpl; [done|]. unfold cost. rewrite Z.eqb_refl. lia.
Qed.

Lemma lev_self a : lev a a = 0%nat.
Proof.
  pose proof (lev_le_script a a _ (edit_script_hamming a a eq_refl)).
  rewrite hamming_self in H. lia.
Qed.

Lemma edit_script_disjoint a b n :
  edit_script a b n -> (forall x y, In x a -> In y b -> x <> y) ->
  (length a <= n)%nat /\ (length b <= n)%nat.
Proof.
  induction 1 as [|x a b n _ IH|y a b n _ IH|x y a b n _ IH]; intros Hd; simpl.
  - lia.
  - destruct IH; [intros u v Hu Hv; apply Hd; simpl; auto|lia].
  - destruct IH; [intros u v Hu Hv; apply Hd; simpl; auto|lia].
  - destruct IH; [intros u v Hu Hv; apply Hd; simpl; auto|].
    unfold cost. rewrite (proj2 (Z.eqb_neq x y)) by (apply Hd; simpl; auto). lia.
Qed.

Lemma lev_disjoint a b :
  (forall x y, In x a -> In y b -> x <> y) -> lev a b = Nat.max (length a) (length b).
Proof.
  intros Hd. pose proof (lev_le_max a b).
  destruct (edit_script_disjoint a b _ (edit_script_lev a b) Hd). lia.
Qed.

Lemma js_div_self L :
  1 <= L < 2 ^ 53 -> js_div (js_number_of_Z L) (js_number_of_Z L) = js_number_of_Z 1.
Proof.
  intros HL.
  destruct (js_number_of_Z_spec L HL) as (m & e & E & Em & He & Hs).
  unfold js_div, SFdiv. rewrite E. unfold SFdiv_core_binary. cbn [Zdigits2].
  rewrite (digits2_pos_size m), Hs.
  replace (Z.min (fexp prec emax (53 + e - (53 + e))) (e - e)) with (-53)
    by (unfold fexp, emin, prec, emax; lia).
  replace (e - e - -53) with 53 by lia.
  rewrite Z.shiftl_mul_pow2 by lia.
  assert (Q : (Zpos m * 2 ^ 53) / Zpos m = 2 ^ 53)
    by (rewrite Z.mul_comm; apply Z.div_mul; lia).
  assert (R : (Zpos m * 2 ^ 53) mod Zpos m = 0)
    by (rewrite Z.mul_comm; apply Z.mod_mul; lia).
  assert (Ediv : Z.div_eucl (Zpos m * 2 ^ 53) (Zpos m)
                 = ((Zpos m * 2 ^ 53) / Zpos m, (Zpos m * 2 ^ 53) mod Zpos m))
    by (unfold Z.div, Z.modulo; by destruct (Z.div_eucl _ _)).
  rewrite Ediv, Q, R.
  assert (Hloc : new_location (Zpos m) 0 = loc_Exact)
    by (unfold new_location, new_location_even, new_location_odd; destruct (Z.even (Zpos m)); reflexivity).
  rewrite Hloc. vm_compute. reflexivity.
Qed.

(** X5: [calculateSimilarity] of a string with itself is 100. *)
Theorem calculateSimilarity_self a :
  Z.of_nat (length a) < 2 ^ 53 -> calculateSimilarity a a = Ok 100.
Proof.
  intros Ha. rewrite calculateSimilarity_value. f_equal.
  destruct a as [|x a]; [done|]. unfold similarity. rewrite lev_self, Nat.max_id.
  destruct (js_number_of_Z_spec (Z.of_nat (length (x :: a)))) as (m & e & E & _);
    [simpl length in *; lia|].
  unfold js_div at 1. rewrite E. vm_compute. reflexivity.
Qed.

(** X6: two strings, not both empty, with no code unit in common have [calculateSimilarity] 0: their edit distance is the longer length, and the binary64 quotient d / L is then exactly 1. *)
Theorem calculateSimilarity_disjoint a b :
  (a <> [] \/ b <> []) ->
  Z.of_nat (length a) < 2 ^ 53 -> Z.of_nat (length b) < 2 ^ 53 ->
  (forall x y, In x a -> In y b -> x <> y) ->
  calculateSimilarity a b = Ok 0.
Proof.
  intros Hne Ha Hb Hd. rewrite calculateSimilarity_value. f_equal.
  destruct a as [|x a], b as [|y b]; try done; [by destruct Hne|].
  unfold similarity. rewrite lev_disjoint by done.
  rewrite js_div_self by (simpl length in *; lia). vm_compute. reflexivity.
Qed.

Section CharMap.

Variable f : Z -> Z.
Hypothesis f_space : forall c, is_js_space (f c) = is_js_space c.

Lemma drop_spaces_map s : drop_spaces (map f s) = map f (drop_spaces s).
Proof. induction s as [|c s IH]; simpl; [done|]. rewrite f_space. by destruct (is_js_space c). Qed.

Lemma trim_map s : trim (map f s) = map f (trim s).
Proof. unfold trim. by rewrite drop_spaces_map, <- map_rev, drop_spaces_map, map_rev. Qed.

End CharMap.

Lemma trim_trim s : trim (trim s) = trim s.
Proof. destruct (trim_leading s). by apply trim_id. Qed.

Lemma normalizeString_trim_lower lc f x :
  (forall s, lc s = map f s) -> (forall c, f (f c) = f c) ->
  (forall c, is_js_space (f c) = is_js_space c) ->
  normalizeString lc (trim (lc x)) = normalizeString lc x.
Proof.
  intros Hmap Hid Hsp. unfold normalizeString. f_equal. f_equal.
  rewrite !Hmap, !(trim_map f Hsp), map_map, trim_trim.
  apply map_ext. done.
Qed.

Lemma Exists_map_iff {A B} (P : B -> Prop) (g : A -> B) (l : list A) :
  Exists P (map g l) <-> Exists (fun x => P (g x)) l.
Proof.
  induction l as [|x l IH]; simpl; rewrite ?Exists_nil, ?Exists_cons; [done|]. by rewrite IH.
Qed.

(** X7: for a lower-casing that maps each code unit on its own, is idempotent and keeps whitespace, a final speech result in the voice practice hook gets the score and the feedback that [calculateMatch] gives on the raw target word, the raw primary transcript and the raw other transcripts: the lowercase-and-trim of [startListening] and [onresult] does not change the normalized strings, and the primary transcript among the alternatives is redundant.  The result's transcript is the lowercased, trimmed primary transcript. *)
Theorem onresult_final toLowerCase f targetWord tw r0 rest :
  (forall s, toLowerCase s = map f s) -> (forall c, f (f c) = f c) ->
  (forall c, is_js_space (f c) = is_js_space c) ->
  startListening_target toLowerCase true targetWord = Some tw ->
  exists v v',
    onresult toLowerCase tw (r0 :: rest) true = Ok (trim (toLowerCase r0), Some v) /\
    calculateMatch toLowerCase targetWord r0 rest = Ok v' /\
    score v = score v' /\ feedback v = feedback v' /\ transcript v = trim (toLowerCase r0).
Proof.
  intros Hmap Hid Hsp Hst. unfold startListening_target in Hst. simpl in Hst.
  case_match; [discriminate|]. injection Hst as <-.
  set (g := fun r => trim (toLowerCase r)).
  assert (Hg : forall x, normalizeString toLowerCase (g x) = normalizeString toLowerCase x)
    by (intros x; by apply (normalizeString_trim_lower _ f)).
  unfold onresult. fold (g r0). change (map (fun r => trim (toLowerCase r)) (r0 :: rest))
    with (g r0 :: map g rest).
  rewrite calculateMatch_eq, classify_spec_drop_alt by done. simpl.
  eexists _, _. split; [reflexivity|]. split; [apply calculateMatch_eq|].
  assert (HE : bool_decide (Exists (fun alt => normalizeString toLowerCase alt
                                               = normalizeString toLowerCase targetWord) (map g rest))
             = bool_decide (Exists (fun alt => normalizeString toLowerCase alt
                                               = normalizeString toLowerCase targetWord) rest)).
  { apply bool_decide_ext. rewrite Exists_map_iff. split; intros HX; (eapply Exists_impl; [exact HX|]); intros x; cbv beta; by rewrite ?Hg. }
  unfold classify_spec. fold (g targetWord). rewrite !Hg, HE.
  split; [|split]; repeat case_match; reflexivity.
Qed.

Lemma ascii_lower_space c : (65 <= c <= 90) -> is_js_space c = false /\ is_js_space (c + 32) = false.
Proof.
  intros H. unfold is_js_space.
  split; apply not_true_iff_false;
    rewrite ?orb_true_iff, ?andb_true_iff, ?Z.leb_le, ?Z.eqb_eq; lia.
Qed.

Lemma onresult_final_witness :
  exists v v',
    onresult ascii_toLowerCase (js_of_string "g'day mate") [js_of_string " G'day Mate"; js_of_string "good day mate"] true
    = Ok (trim (ascii_toLowerCase (js_of_string " G'day Mate")), Some v) /\
    calculateMatch ascii_toLowerCase (js_of_string "G'day mate") (js_of_string " G'day Mate") [js_of_string "good day mate"]
    = Ok v' /\ score v = score v' /\ feedback v = feedback v'.
Proof.
  set (f := fun c => if (65 <=? c) && (c <=? 90) then c + 32 else c).
  assert (Hmap : forall s, ascii_toLowerCase s = map f s) by reflexivity.
  assert (Hid : forall c, f (f c) = f c).
  { intros c. unfold f. destruct (Z.leb_spec 65 c), (Z.leb_spec c 90); simpl;
      destruct (Z.leb_spec 65 (c + 32)), (Z.leb_spec (c + 32) 90); simpl;
      try destruct (Z.leb_spec 65 c); try destruct (Z.leb_spec c 90); simpl; lia. }
  assert (Hsp : forall c, is_js_space (f c) = is_js_space c).
  { intros c. unfold f. destruct (Z.leb_spec 65 c), (Z.leb_spec c 90); simpl; try done.
    destruct (ascii_lower_space c) as [-> ->]; [lia|done]. }
  assert (Hst : startListening_target ascii_toLowerCase true (js_of_string "G'day mate")
                = Some (js_of_string "g'day mate")) by (vm_compute; reflexivity).
  destruct (onresult_final ascii_toLowerCase f _ _ (js_of_string " G'day Mate") [js_of_string "good day mate"]
              Hmap Hid Hsp Hst) as (v & v' & E1 & E2 & E3 & E4 & _).
  exists v, v'. split; [exact E1|split; [exact E2|split; [exact E3|exact E4]]].
Defined.


Lemma next_index_mod len j : 0 <= j < len -> next_index len j = (j + 1) mod len.
Proof.
  intros Hj. unfold next_index. destruct (Z.ltb_spec j (len - 1)).
  - rewrite Z.mod_small; lia.
  - replace (j + 1) with len by lia. rewrite Z.mod_same; lia.
Qed.

Lemma js_index_in {A} (l : list A) i :
  0 <= i < Z.of_nat (length l) -> exists x, js_index l i = Some x /\ forall d, nth (Z.to_nat i) l d = x.
Proof.
  intros Hi. unfold js_index. rewrite (proj2 (Z.ltb_ge i 0)) by lia.
  destruct (lookup_lt_is_Some_2 l (Z.to_nat i)) as [x Hx]; [lia|].
  exists x. split; [done|]. intros d. by apply nth_lookup_Some.
Qed.


(** X8: on a nonempty deck, from an index in range, [k] skips move the index to (index + k) mod (deck length), so a whole deck of skips comes back to the start; the card ends face down after a skip and the session counts are untouched. *)
Theorem handleSkip_cycle cards st k :
  cards <> [] -> 0 <= currentIndex st < Z.of_nat (length cards) ->
  currentIndex (Nat.iter k (handleSkip cards) st)
  = (currentIndex st + Z.of_nat k) mod Z.of_nat (length cards) /\
  isFlipped (Nat.iter k (handleSkip cards) st) = (isFlipped st && bool_decide (k = 0%nat))%bool /\
  reviewed (Nat.iter k (handleSkip cards) st) = reviewed st /\
  correct (Nat.iter k (handleSkip cards) st) = correct st.
Proof.
  intros Hne Hi. assert (Hlen : 0 < Z.of_nat (length cards)) by (destruct cards; [done|simpl; lia]).
  induction k as [|k IH]; simpl Nat.iter.
  - rewrite Z.add_0_r, Z.mod_small by lia. rewrite bool_decide_eq_true_2 by done.
    by rewrite andb_true_r.
  - destruct IH as (IH1 & _ & IH3 & IH4). cbn [handleSkip currentIndex isFlipped reviewed correct].
    rewrite IH1, next_index_mod by (apply Z.mod_pos_bound; lia).
    rewrite Z.add_mod_idemp_l by lia. rewrite bool_decide_eq_false_2 by lia.
    rewrite andb_false_r. repeat split; [f_equal; lia|done|done].
Qed.





Lemma session_step_ok cards st a :
  cards <> [] -> session_ok (Z.of_nat (length cards)) st ->
  session_ok (Z.of_nat (length cards)) (session_step cards st a).
Proof.
  intros Hne [Hi Hc]. assert (Hlen : 0 < Z.of_nat (length cards)) by (destruct cards; [done|simpl; lia]).
  destruct a as [rating| | | | |]; unfold session_ok; simpl.
  - destruct (js_index_in cards (currentIndex st) Hi) as (card & Hcard & _).
    unfold handleRate. rewrite Hcard. simpl. rewrite next_index_mod by lia.
    pose proof (Z.mod_pos_bound (currentIndex st + 1) _ Hlen).
    destruct (3 <=? rating); simpl; lia.
  - rewrite next_index_mod by lia. pose proof (Z.mod_pos_bound (currentIndex st + 1) _ Hlen). lia.
  - lia.
  - lia.
  - lia.
  - lia.
Qed.

(** X11: on a nonempty deck that does not change, any sequence of rate, skip, flip, reset, previous and next actions from the initial session keeps the index in range and 0 <= correct <= reviewed. *)
Theorem session_invariant cards actions :
  cards <> [] ->
  let st := fold_left (session_step cards) actions initial_session in
  0 <= currentIndex st < Z.of_nat (length cards) /\ 0 <= correct st <= reviewed st.
Proof.
  intros Hne. assert (Hlen : 0 < Z.of_nat (length cards)) by (destruct cards; [done|simpl; lia]).
  assert (H0 : session_ok (Z.of_nat (length cards)) initial_session) by (unfold session_ok; simpl; lia).
  revert H0. generalize initial_session.
  induction actions as [|a actions IH]; intros st Hst; simpl; [exact Hst|].
  apply IH. by apply session_step_ok.
Qed.

(** X12: flipping a card twice restores the session state and records exactly one card view. *)
Theorem handleFlip_twice st views :
  let p := handleFlip st views in
  handleFlip (fst p) (snd p) = (st, views + 1).
Proof. destruct st as [i [] r c]; simpl; [f_equal; lia|done]. Qed.







Lemma count_terms_cons p t l :
  count_terms p (t :: l) = (if p t then 1 else 0) + count_terms p l.
Proof. unfold count_terms. simpl. destruct (p t); simpl length; lia. Qed.

Lemma count_terms_nonneg p l : 0 <= count_terms p l.
Proof. unfold count_terms. lia. Qed.

Lemma categoryStats_fold level_of c terms : forall m,
  foldl (categoryStats_add level_of) m terms !! c
  = match m !! c with
    | Some s => Some (cs_plus s (cat_counts level_of c terms))
    | None => if bool_decide (Exists (fun t => term_category t = c) terms)
              then Some (cat_counts level_of c terms) else None
    end.
Proof.
  induction terms as [|t terms IH]; intros m; simpl.
  - destruct (m !! c) as [s|]; [|done]. destruct s; unfold cs_plus, cat_counts, count_terms; simpl.
    f_equal. f_equal; lia.
  - rewrite IH. unfold categoryStats_add.
    destruct (decide (term_category t = c)) as [<-|Hne].
    + rewrite lookup_insert_eq. cbv beta iota.
      rewrite (bool_decide_eq_true_2 (Exists _ (t :: terms))) by (apply Exists_cons; by left).
      unfold cat_counts, cs_plus; rewrite !count_terms_cons; cbn [cs_total cs_learned cs_mastered].
      rewrite !(bool_decide_eq_true_2 (term_category t = term_category t)) by done. cbn [andb].
      destruct (m !! term_category t) as [[a b e]|]; cbn [cs_total cs_learned cs_mastered];
        do 2 f_equal; destruct (1 <=? level_of (term_id t)), (5 <=? level_of (term_id t)); lia.
    + rewrite lookup_insert_ne by done.
      assert (Hcc : cat_counts level_of c (t :: terms) = cat_counts level_of c terms).
      { unfold cat_counts. rewrite !count_terms_cons. rewrite !bool_decide_eq_false_2 by done.
        simpl. f_equal. }
      rewrite Hcc. destruct (m !! c); [done|].
      rewrite (bool_decide_ext (Exists (fun t => term_category t = c) (t :: terms))
                               (Exists (fun t => term_category t = c) terms)); [done|].
      rewrite Exists_cons. naive_solver.
Qed.

(** X14: [categoryStats] has an entry exactly for the categories of the terms, and the entry of a category counts its terms, those of level at least 1 and those of level at least 5. *)
Theorem categoryStats_counts level_of slangData c :
  categoryStats level_of slangData !! c
  = if bool_decide (Exists (fun t => term_category t = c) slangData)
    then Some {| cs_total := count_terms (fun t => bool_decide (term_category t = c)) slangData;
                 cs_learned := count_terms (fun t => bool_decide (term_category t = c)
                                                     && (1 <=? level_of (term_id t))) slangData;
                 cs_mastered := count_terms (fun t => bool_decide (term_category t = c)
                                                      && (5 <=? level_of (term_id t))) slangData |}
    else None.
Proof. unfold categoryStats. rewrite categoryStats_fold. by rewrite lookup_empty. Qed.

Lemma count_terms_mono (p q : SlangTerm -> bool) l :
  (forall t, p t = true -> q t = true) -> count_terms p l <= count_terms q l.
Proof.
  intros H. induction l as [|t l IH]; [unfold count_terms; simpl; lia|].
  rewrite !count_terms_cons. specialize (H t).
  destruct (p t); [rewrite (H eq_refl)|destruct (q t)]; lia.
Qed.

Lemma count_terms_pos (p : SlangTerm -> bool) l :
  Exists (fun t => p t = true) l -> 1 <= count_terms p l.
Proof.
  induction 1 as [t l Ht|t l _ IH]; rewrite count_terms_cons;
    pose proof (count_terms_nonneg p l); [rewrite Ht|destruct (p t)]; lia.
Qed.

(** X15: every entry of [categoryStats] has 0 <= mastered <= learned <= total and total >= 1, so the bar widths learned / total and mastered / total are ratios in [0, 1]. *)
Theorem categoryStats_bounds level_of slangData c s :
  categoryStats level_of slangData !! c = Some s ->
  0 <= cs_mastered s <= cs_learned s /\ cs_learned s <= cs_total s /\ 1 <= cs_total s.
Proof.
  intros E. unfold categoryStats in E. rewrite categoryStats_fold, lookup_empty in E.
  case_bool_decide as Hex; [|discriminate]. injection E as <-. unfold cat_counts; cbn.
  split; [split; [apply count_terms_nonneg|]|split].
  - apply count_terms_mono. intros t. rewrite !andb_true_iff, !Z.leb_le. intros [H1 H2]. split; [exact H1|lia].
  - apply count_terms_mono. intros t. rewrite andb_true_iff. tauto.
  - apply count_terms_pos. eapply Exists_impl; [exact Hex|]. intros t Ht. cbv beta.
    by apply bool_decide_eq_true_2.
Qed.



Lemma calculateMatch_score_range_witness :
  0 <= score {| score := 50; feedback := tryagain; transcript := js_of_string "good afternoon" |} <= 100.
Proof.
  apply (proj1 (calculateMatch_score_range ascii_toLowerCase (js_of_string "good morning")
                  (js_of_string "good afternoon") [] _
                  ltac:(vm_compute; reflexivity) ltac:(vm_compute; reflexivity)
                  ltac:(vm_compute; reflexivity))).
Defined.

Lemma calculateMatch_empty_target_witness :
  calculateMatch ascii_toLowerCase (js_of_string "?!") (js_of_string "mate") [js_of_string "..."]
  = Ok {| score := 95; feedback := excellent; transcript := js_of_string "mate" |}.
Proof.
  rewrite (calculateMatch_empty_target ascii_toLowerCase (js_of_string "?!") (js_of_string "mate")
             [js_of_string "..."] ltac:(vm_compute; reflexivity)
             ltac:(vm_compute; discriminate)).
  vm_compute. reflexivity.
Defined.

Lemma calculateMatch_empty_spoken_witness :
  calculateMatch ascii_toLowerCase (js_of_string "mate") (js_of_string "  ") []
  = Ok {| score := 0; feedback := different; transcript := js_of_string "  " |}.
Proof.
  rewrite (calculateMatch_empty_spoken ascii_toLowerCase (js_of_string "mate") (js_of_string "  ") []
             ltac:(vm_compute; reflexivity)
             ltac:(vm_compute; discriminate)).
  vm_compute. reflexivity.
Defined.

Lemma calculateSimilarity_self_witness :
  calculateSimilarity (js_of_string "strewth") (js_of_string "strewth") = Ok 100.
Proof. apply calculateSimilarity_self. vm_compute. reflexivity. Defined.

Lemma calculateSimilarity_disjoint_witness :
  calculateSimilarity (js_of_string "arvo") (js_of_string "bludge") = Ok 0.
Proof.
  apply calculateSimilarity_disjoint; [left; discriminate|vm_compute; reflexivity|vm_compute; reflexivity|].
  intros x y Hx Hy. vm_compute in Hx, Hy.
  repeat (destruct Hx as [<-|Hx]; [|]); try contradiction;
    repeat (destruct Hy as [<-|Hy]; try contradiction); discriminate.
Defined.

Lemma handleSkip_cycle_witness :
  currentIndex (Nat.iter 3 (handleSkip [arvo; brekkie; servo])
                  {| currentIndex := 1; isFlipped := true; reviewed := 2; correct := 1 |}) = 1.
Proof.
  destruct (handleSkip_cycle [arvo; brekkie; servo]
              {| currentIndex := 1; isFlipped := true; reviewed := 2; correct := 1 |} 3
              ltac:(discriminate) ltac:(simpl; lia)) as [E _].
  rewrite E. reflexivity.
Defined.



Lemma session_invariant_witness :
  0 <= currentIndex (fold_left (session_step [arvo; brekkie])
                       [ActFlip; ActRate 4; ActNext; ActRate 1; ActPrevious; ActSkip] initial_session) < 2.
Proof.
  apply (proj1 (session_invariant [arvo; brekkie]
                  [ActFlip; ActRate 4; ActNext; ActRate 1; ActPrevious; ActSkip] ltac:(discriminate))).
Defined.

Lemma categoryStats_bounds_witness :
  exists s, categoryStats (fun id => if bool_decide (id = "arvo"%string) then 5 else 0)
              [arvo; brekkie; servo] !! "everyday"%string = Some s /\
            0 <= cs_mastered s <= cs_learned s /\ cs_learned s <= cs_total s /\ 1 <= cs_total s.
Proof.
  assert (E : categoryStats (fun id => if bool_decide (id = "arvo"%string) then 5 else 0)
                [arvo; brekkie; servo] !! "everyday"%string
              = Some {| cs_total := 2; cs_learned := 1; cs_mastered := 1 |}) by reflexivity.
  exists {| cs_total := 2; cs_learned := 1; cs_mastered := 1 |}.
  split; [exact E|exact (categoryStats_bounds _ _ _ _ E)].
Defined.
